(** * Kepler: the orbital mechanics engine of the solar-system model

    A shallow embedding of the engine of [script.js] (class [SolarSystem]:
    [initializePlanets], [solveKeplersEquation], [calculateOrbitalPosition],
    [calculateOrbitalVelocity], [update]) and of the constants of the
    configuration file, followed by the properties of the specification.

    Numbers.  A JavaScript number is modelled by [num]: a finite value, the
    two infinities, or NaN.  Finite values are exact real numbers: rounding,
    overflow of finite operands and the sign of zero are abstracted away, so
    a statement such as "returns [M] exactly" is a statement about real
    arithmetic.  The special values follow IEEE-754 as JavaScript does
    (NaN is contagious, every comparison with NaN is false, [Infinity -
    Infinity] and [0 * Infinity] are NaN, [Math.cos(Infinity)] is NaN).
    What double precision does at the two ends of its range (overflow to an
    infinity, underflow to zero) is given apart, by [dbl], and is used
    where a property of the code depends on it. *)

From Stdlib Require Import Reals Lra Psatz Machin Factorial.
From stdpp Require Import gmap strings list fin_maps.

Local Open Scope R_scope.

(** ** JavaScript numbers *)

Module JS.

Inductive num : Type :=
  | NaN
  | PInf
  | NInf
  | Fin (r : R).

#[global] Instance Rlt_decision : RelDecision Rlt := Rlt_dec.
#[global] Instance Rle_decision : RelDecision Rle := Rle_dec.
#[global] Instance Req_decision : RelDecision (@eq R) := Req_dec_T.

(** [isNaN(x)] and [isFinite(x)]. *)
Definition isNaN (x : num) : bool :=
  match x with NaN => true | _ => false end.

Definition isFinite (x : num) : bool :=
  match x with Fin _ => true | _ => false end.

(** The comparisons [x < y], [x <= y], [x > y], [x >= y]. *)
Definition num_lt (x y : num) : bool :=
  match x, y with
  | NaN, _ | _, NaN => false
  | Fin a, Fin b => bool_decide (a < b)
  | _, NInf => false
  | NInf, _ => true
  | PInf, _ => false
  | _, PInf => true
  end.

Definition num_le (x y : num) : bool :=
  match x, y with
  | NaN, _ | _, NaN => false
  | Fin a, Fin b => bool_decide (a <= b)
  | NInf, _ => true
  | _, NInf => false
  | _, PInf => true
  | PInf, _ => false
  end.

Definition num_gt (x y : num) : bool := num_lt y x.
Definition num_ge (x y : num) : bool := num_le y x.

(** Unary minus and the four arithmetic operators.  On two finite operands
    the result is the exact real result: it is not rounded, a large result
    does not overflow to an infinity, and a small one does not underflow to
    zero.  The statements that depend on this are made for magnitudes at
    which double precision does neither (see [representable], [squarable]
    and [wellScaled]). *)
Definition neg (x : num) : num :=
  match x with
  | NaN => NaN
  | PInf => NInf
  | NInf => PInf
  | Fin a => Fin (- a)
  end.

Definition add (x y : num) : num :=
  match x, y with
  | NaN, _ | _, NaN => NaN
  | Fin a, Fin b => Fin (a + b)
  | PInf, NInf | NInf, PInf => NaN
  | PInf, _ | _, PInf => PInf
  | NInf, _ | _, NInf => NInf
  end.

Definition sub (x y : num) : num := add x (neg y).

(** The infinity carrying the sign of [a]; zero counts as positive. *)
Definition inf_of_sign (a : R) : num :=
  if bool_decide (a < 0) then NInf else PInf.

Definition mul (x y : num) : num :=
  match x, y with
  | NaN, _ | _, NaN => NaN
  | Fin a, Fin b => Fin (a * b)
  | Fin a, PInf | PInf, Fin a =>
      if bool_decide (a = 0) then NaN else inf_of_sign a
  | Fin a, NInf | NInf, Fin a =>
      if bool_decide (a = 0) then NaN else inf_of_sign (- a)
  | PInf, PInf | NInf, NInf => PInf
  | PInf, NInf | NInf, PInf => NInf
  end.

Definition div (x y : num) : num :=
  match x, y with
  | NaN, _ | _, NaN => NaN
  | Fin a, Fin b =>
      if bool_decide (b = 0)
      then (if bool_decide (a = 0) then NaN else inf_of_sign a)
      else Fin (a / b)
  | Fin _, (PInf | NInf) => Fin 0
  | PInf, Fin b => inf_of_sign b
  | NInf, Fin b => inf_of_sign (- b)
  | (PInf | NInf), (PInf | NInf) => NaN
  end.

(** Truncation towards zero of a real, as an integer. *)
Definition trunc (a : R) : Z :=
  if bool_decide (0 <= a) then Int_part a else (- Int_part (- a))%Z.

(** The remainder operator [x % y]: the sign of the result is the sign of
    the dividend. *)
Definition rem (x y : num) : num :=
  match x, y with
  | NaN, _ | _, NaN => NaN
  | (PInf | NInf), _ => NaN
  | Fin a, (PInf | NInf) => Fin a
  | Fin a, Fin b =>
      if bool_decide (b = 0) then NaN else Fin (a - b * IZR (trunc (a / b)))
  end.

(** [Math.abs], [Math.sqrt], [Math.sin], [Math.cos], [Math.min],
    [Math.max]. *)
Definition Math_abs (x : num) : num :=
  match x with
  | NaN => NaN
  | PInf | NInf => PInf
  | Fin a => Fin (Rabs a)
  end.

Definition Math_sqrt (x : num) : num :=
  match x with
  | NaN | NInf => NaN
  | PInf => PInf
  | Fin a => if bool_decide (a < 0) then NaN else Fin (sqrt a)
  end.

Definition Math_sin (x : num) : num :=
  match x with Fin a => Fin (sin a) | _ => NaN end.

Definition Math_cos (x : num) : num :=
  match x with Fin a => Fin (cos a) | _ => NaN end.

Definition Math_min (x y : num) : num :=
  match x, y with
  | NaN, _ | _, NaN => NaN
  | _, _ => if num_lt y x then y else x
  end.

Definition Math_max (x y : num) : num :=
  match x, y with
  | NaN, _ | _, NaN => NaN
  | _, _ => if num_lt x y then y else x
  end.

(** Truthiness of a number: [0] and NaN are falsy.  [x || y] on numbers and
    [!x]. *)
Definition truthy (x : num) : bool :=
  match x with
  | NaN => false
  | Fin a => negb (bool_decide (a = 0))
  | _ => true
  end.

Definition or_else (x y : num) : num := if truthy x then x else y.

End JS.

Import JS.

Declare Scope num_scope.
Delimit Scope num_scope with num.
Bind Scope num_scope with num.
Infix "+" := add : num_scope.
Infix "-" := sub : num_scope.
Infix "*" := mul : num_scope.
Infix "/" := div : num_scope.
Infix "%%" := rem (at level 40, left associativity) : num_scope.
Infix "<?" := num_lt : num_scope.
Infix "<=?" := num_le : num_scope.
Infix ">?" := num_gt : num_scope.
Infix ">=?" := num_ge : num_scope.
Infix "|||" := or_else (at level 50, left associativity) : num_scope.
Coercion Fin : R >-> num.

(** ** Configuration (the constants and tables of the configuration file) *)

(** Physical constants: [G] in m^3/(kg s^2), [AU] in metres, [SOLAR_MASS]
    in kilograms. *)
Definition G : num := Fin 6.67430e-11.
Definition AU : num := Fin 1.496e11.
Definition SOLAR_MASS : num := Fin 1.989e30.

(** An entry of [PLANETS].  The display fields ([name], [radius], [color])
    and [mass] are not read by the engine and are left out. *)
Record Planet := mkPlanet {
  semiMajorAxis : num;
  eccentricity : num;
  period : num
}.

(** The fields of [DEFAULT_CONFIG] read by the engine.  [epoch] is the
    time value of the [Date] in milliseconds (NaN for an invalid date).
    [maxTrailLength] is a natural number, as in the configuration file
    ([100]): a cap that is negative, fractional or not a number is not
    modelled. *)
Record Config := mkConfig {
  cfg_timeSpeed : num;
  cfg_showTrails : bool;
  cfg_maxTrailLength : nat;
  startAtCurrentDate : bool;
  epoch : num
}.

Definition DEFAULT_CONFIG : Config :=
  {| cfg_timeSpeed := Fin 0.1;
     cfg_showTrails := false;
     cfg_maxTrailLength := 100;
     startAtCurrentDate := true;
     epoch := Fin 946728000000 |}.

Definition PLANETS : gmap string Planet :=
  <["mercury" := mkPlanet (Fin 0.387) (Fin 0.206) (Fin 0.241)]>
  (<["venus" := mkPlanet (Fin 0.723) (Fin 0.007) (Fin 0.615)]>
  (<["earth" := mkPlanet (Fin 1.0) (Fin 0.017) (Fin 1.0)]>
  (<["mars" := mkPlanet (Fin 1.524) (Fin 0.093) (Fin 1.881)]>
  (<["jupiter" := mkPlanet (Fin 5.203) (Fin 0.048) (Fin 11.86)]>
  (<["saturn" := mkPlanet (Fin 9.537) (Fin 0.056) (Fin 29.46)]>
  (<["uranus" := mkPlanet (Fin 19.191) (Fin 0.046) (Fin 84.01)]>
  (<["neptune" := mkPlanet (Fin 30.069) (Fin 0.010) (Fin 164.79)]> ∅))))))).

(** ** The engine state *)

(** A point [{ x, y }]. *)
Record Vec2 := mkVec2 { x : num; y : num }.

(** An entry of [this.planetStates]. *)
Record PlanetState := mkPlanetState {
  data : Planet;
  meanAnomaly : num;
  position : Vec2;
  velocity : Vec2;
  trail : list Vec2
}.

(** The fields of a [SolarSystem] object that the engine reads or writes;
    the canvas and the display switches other than [showTrails] are left
    out. *)
Record SolarSystem := mkSolarSystem {
  timeSpeed : num;
  currentTime : num;
  isPaused : bool;
  showTrails : bool;
  planetStates : gmap string PlanetState;
  maxTrailLength : nat
}.

(** The outcome of a [try] block: a value, or a thrown [Error]. *)
Inductive result (A : Type) : Type :=
  | Ok (a : A)
  | Throw (message : string).
Arguments Ok {A} a.
Arguments Throw {A} message.

(** ** Kepler's equation: [solveKeplersEquation] *)

Local Open Scope num_scope.

Definition maxIterations : nat := 100.

(** The variables of the Newton-Raphson loop, and whether the loop was left
    by the [break] of the near-zero denominator test. *)
Record Newton := mkNewton {
  E : num;
  delta : num;
  iterations : nat;
  nearZeroDenominator : bool
}.

(** The [while] loop.  [fuel] bounds the number of passes; the loop guard
    itself contains [iterations < maxIterations], so [maxIterations] passes
    are enough (see [newtonLoop_fuel]).  The iterates are those of exact
    real arithmetic: the iterates of the code follow them up to rounding
    where the iteration settles, and need not where it does not. *)
Fixpoint newtonLoop (fuel : nat) (M e tolerance : num) (st : Newton) : Newton :=
  match fuel with
  | O => st
  | S fuel' =>
      if (Math_abs (delta st) >? tolerance) && (iterations st <? maxIterations)%nat
      then
        let denominator := Fin 1 - e * Math_cos (E st) in
        if Math_abs denominator <? Fin 1e-10
        then mkNewton (E st) (delta st) (iterations st) true
        else
          let delta' := (E st - e * Math_sin (E st) - M) / denominator in
          newtonLoop fuel' M e tolerance
            (mkNewton (E st - delta') delta' (S (iterations st)) false)
      else st
  end.

(** The eccentricity used by the iteration: [e] itself, or
    [Math.max(0, Math.min(0.99, e))] when [e < 0 || e >= 1]. *)
Definition clampEccentricity (e : num) : num :=
  if (e <? Fin 0) || (e >=? Fin 1) then Math_max (Fin 0) (Math_min (Fin 0.99) e) else e.

(** The loop variables when the loop is left, for inputs that are not NaN. *)
Definition solveKeplersLoop (M e tolerance : num) : Newton :=
  newtonLoop maxIterations M (clampEccentricity e) tolerance
    (mkNewton M (Fin 1) 0 false).

Definition solveKeplersEquation (M e tolerance : num) : num :=
  if isNaN M || isNaN e then Fin 0
  else E (solveKeplersLoop M e tolerance).

(** The default value of the parameter [tolerance]. *)
Definition defaultTolerance : num := Fin 1e-6.

(** ** [calculateOrbitalPosition] *)

(** The body of the [try] block. *)
Definition calculateOrbitalPosition_try (planet : Planet) (meanAnomaly : num)
  : result Vec2 :=
  let a := semiMajorAxis planet in
  let e := eccentricity planet in
  if isNaN a || (a <=? Fin 0) then Throw "Invalid semi-major axis"
  else if isNaN e || (e <? Fin 0) || (e >=? Fin 1) then Throw "Invalid eccentricity"
  else if isNaN meanAnomaly then Throw "Invalid mean anomaly"
  else
    let E := solveKeplersEquation meanAnomaly e defaultTolerance in
    let x := a * (Math_cos E - e) in
    let y := a * Math_sqrt (Fin 1 - e * e) * Math_sin E in
    if negb (isFinite x) || negb (isFinite y)
    then Throw "Invalid position calculation result"
    else Ok (mkVec2 x y).

(** The [catch] block returns the fallback position
    [{ x: planet.semiMajorAxis || 1, y: 0 }]. *)
Definition calculateOrbitalPosition (planet : Planet) (meanAnomaly : num) : Vec2 :=
  match calculateOrbitalPosition_try planet meanAnomaly with
  | Ok p => p
  | Throw _ => mkVec2 (semiMajorAxis planet ||| Fin 1) (Fin 0)
  end.

(** ** [calculateOrbitalVelocity] (vis-viva) *)

Definition calculateOrbitalVelocity_try (planet : Planet) (position : Vec2)
  : result num :=
  let a := semiMajorAxis planet * AU in
  let r := Math_sqrt (x position * x position + y position * y position) * AU in
  if (r <=? Fin 0) || negb (isFinite r) then Throw "Invalid distance"
  else if (a <=? Fin 0) || negb (isFinite a) then Throw "Invalid semi-major axis"
  else
    let vSquared := G * SOLAR_MASS * (Fin 2 / r - Fin 1 / a) in
    let v := Math_sqrt (Math_abs vSquared) in
    if negb (isFinite v) then Throw "Invalid velocity calculation result"
    else Ok (v / Fin 1000).

Definition calculateOrbitalVelocity (planet : Planet) (position : Vec2) : num :=
  match calculateOrbitalVelocity_try planet position with
  | Ok v => v
  | Throw _ => Fin 0
  end.

(** [verifyKeplersThirdLaw]: the period in years from [T^2 = 4 pi^2 a^3 / GM]. *)
Definition verifyKeplersThirdLaw (planet : Planet) : num :=
  let a := semiMajorAxis planet * AU in
  let GM := G * SOLAR_MASS in
  let T_seconds := Fin 2 * Fin PI * Math_sqrt ((a * a * a) / GM) in
  T_seconds / (Fin 365.25 * Fin 24 * Fin 3600).

(** ** Double precision at the two ends of its range *)

(** The operators of [JS] are exact on finite operands.  What double
    precision does to a result at the two ends of its range is [dbl]:
    rounded to nearest, a result of magnitude [2^1024 - 2^970] or more is an
    infinity, and a result of magnitude [2^-1075] or less is zero.  Inside
    the range the result is kept as it is: rounding stays abstracted. *)
Definition overflowThreshold : R :=
  179769313486231580793728971405303415079934132710037826936173778980444968292764750946649017977587207096330286416692887910946555547851940402630657488671505820681908902000708383676273854845817711531764475730270069855571366959622842914819860834936475292719074168444365510704342711559699508093042880177904174497792.

Definition underflowThreshold : R :=
  / 404804506614621236704990693437834614099113299528284236713802716054860679135990693783920767402874248990374155728633623822779617474771586953734026799881477019843034848553132722728933815484186432682479535356945490137124014966849385397236206711298319112681620113024717539104666829230461005064372655017292012526615415482186989568.

Definition dbl (v : num) : num :=
  match v with
  | Fin r =>
      if bool_decide (overflowThreshold <= Rabs r) then inf_of_sign r
      else if bool_decide (Rabs r <= underflowThreshold) then Fin 0
      else Fin r
  | _ => v
  end.

(** [solveKeplersEquation], [calculateOrbitalPosition] and
    [calculateOrbitalVelocity] once more, with [dbl] applied to the result
    of every arithmetic operator.  They show what the code does with
    magnitudes that the exact operators cannot tell from the others. *)
Fixpoint newtonLoop_dbl (fuel : nat) (M e tolerance : num) (st : Newton) : Newton :=
  match fuel with
  | O => st
  | S fuel' =>
      if (Math_abs (delta st) >? tolerance) && (iterations st <? maxIterations)%nat
      then
        let denominator := dbl (Fin 1 - dbl (e * Math_cos (E st))) in
        if Math_abs denominator <? Fin 1e-10
        then mkNewton (E st) (delta st) (iterations st) true
        else
          let delta' :=
            dbl (dbl (dbl (E st - dbl (e * Math_sin (E st))) - M) / denominator) in
          newtonLoop_dbl fuel' M e tolerance
            (mkNewton (dbl (E st - delta')) delta' (S (iterations st)) false)
      else st
  end.

Definition solveKeplersEquation_dbl (M e tolerance : num) : num :=
  if isNaN M || isNaN e then Fin 0
  else E (newtonLoop_dbl maxIterations M (clampEccentricity e) tolerance
            (mkNewton M (Fin 1) 0 false)).

Definition calculateOrbitalPosition_try_dbl (planet : Planet) (meanAnomaly : num)
  : result Vec2 :=
  let a := semiMajorAxis planet in
  let e := eccentricity planet in
  if isNaN a || (a <=? Fin 0) then Throw "Invalid semi-major axis"
  else if isNaN e || (e <? Fin 0) || (e >=? Fin 1) then Throw "Invalid eccentricity"
  else if isNaN meanAnomaly then Throw "Invalid mean anomaly"
  else
    let E := solveKeplersEquation_dbl meanAnomaly e defaultTolerance in
    let x := dbl (a * dbl (Math_cos E - e)) in
    let y := dbl (dbl (a * Math_sqrt (dbl (Fin 1 - dbl (e * e)))) * Math_sin E) in
    if negb (isFinite x) || negb (isFinite y)
    then Throw "Invalid position calculation result"
    else Ok (mkVec2 x y).

Definition calculateOrbitalPosition_dbl (planet : Planet) (meanAnomaly : num) : Vec2 :=
  match calculateOrbitalPosition_try_dbl planet meanAnomaly with
  | Ok p => p
  | Throw _ => mkVec2 (semiMajorAxis planet ||| Fin 1) (Fin 0)
  end.

Definition calculateOrbitalVelocity_try_dbl (planet : Planet) (position : Vec2)
  : result num :=
  let a := dbl (semiMajorAxis planet * AU) in
  let r :=
    dbl (Math_sqrt (dbl (dbl (x position * x position)
                         + dbl (y position * y position))) * AU) in
  if (r <=? Fin 0) || negb (isFinite r) then Throw "Invalid distance"
  else if (a <=? Fin 0) || negb (isFinite a) then Throw "Invalid semi-major axis"
  else
    let vSquared :=
      dbl (dbl (G * SOLAR_MASS) * dbl (dbl (Fin 2 / r) - dbl (Fin 1 / a))) in
    let v := Math_sqrt (Math_abs vSquared) in
    if negb (isFinite v) then Throw "Invalid velocity calculation result"
    else Ok (dbl (v / Fin 1000)).

Definition calculateOrbitalVelocity_dbl (planet : Planet) (position : Vec2) : num :=
  match calculateOrbitalVelocity_try_dbl planet position with
  | Ok v => v
  | Throw _ => Fin 0
  end.

(** ** [initializePlanets] *)

Definition msPerDay : num := Fin 1000 * Fin 60 * Fin 60 * Fin 24.

(** The first part of [initializePlanets]: the days elapsed since the epoch
    when the simulation starts at the current date.  [now] is the time value
    of [new Date()] in milliseconds. *)
Definition initialTimeOffset (cfg : Config) (now : num) : result num :=
  if startAtCurrentDate cfg then
    if isNaN now then Throw "Invalid current date"
    else if isNaN (epoch cfg) then Throw "Invalid epoch date in configuration"
    else
      let timeOffset := (now - epoch cfg) / msPerDay in
      if negb (isFinite timeOffset) then Throw "Invalid time offset calculation"
      else Ok timeOffset
  else Ok (Fin 0).

(** The mean anomaly [(2 pi t / T) % (2 pi)] of a body at time [t] (days)
    for a period of [periodInDays]. *)
Definition meanAnomalyAt (t periodInDays : num) : num :=
  (Fin 2 * Fin PI * t / periodInDays) %% (Fin 2 * Fin PI).

(** The body of the [try] block run for each key of [PLANETS]: the new
    entry of [planetStates], or the error that makes the loop skip the
    planet. *)
Definition initializePlanet (timeOffset : num) (planet : Planet)
  : result PlanetState :=
  if negb (truthy (period planet)) || (period planet <=? Fin 0)
  then Throw "Invalid period"
  else
    let periodInDays := period planet * Fin 365.25 in
    if (timeOffset >? Fin 0)
       && ((periodInDays <=? Fin 0) || negb (isFinite periodInDays))
    then Throw "Invalid period calculation"
    else
      let meanAnomaly :=
        if timeOffset >? Fin 0 then meanAnomalyAt timeOffset periodInDays
        else Fin 0 in
      let state :=
        mkPlanetState planet meanAnomaly
          (mkVec2 (Fin 0) (Fin 0)) (mkVec2 (Fin 0) (Fin 0)) [] in
      Ok (mkPlanetState (data state) (meanAnomaly)
            (calculateOrbitalPosition planet meanAnomaly)
            (velocity state) (trail state)).

(** One pass of the [forEach] over the keys of [PLANETS]: a planet whose
    initialization throws is skipped, and the entry it may have in
    [planetStates] is left as it is. *)
Definition initializeStep (timeOffset : num) (key : string) (planet : Planet)
    (states : gmap string PlanetState) : gmap string PlanetState :=
  match initializePlanet timeOffset planet with
  | Ok state => <[key := state]> states
  | Throw _ => states
  end.

(** [initializePlanets] returns the object as the method leaves it, and the
    message of the error it throws, if any. *)
Definition initializePlanets (cfg : Config) (planets : gmap string Planet)
    (now : num) (s : SolarSystem) : SolarSystem * option string :=
  match initialTimeOffset cfg now with
  | Throw message => (s, Some message)
  | Ok timeOffset =>
      let currentTime' :=
        if startAtCurrentDate cfg then timeOffset else currentTime s in
      let states := map_fold (initializeStep timeOffset) (planetStates s) planets in
      let s' :=
        mkSolarSystem (timeSpeed s) currentTime' (isPaused s) (showTrails s)
          states (maxTrailLength s) in
      if bool_decide (size states = 0%nat)
      then (s', Some "No planets were successfully initialized")
      else (s', None)
  end.

(** The constructor, called with a canvas element that has a 2D context,
    in a page where [PLANETS] is an object: the defaults of the
    configuration, an empty [planetStates], then [initializePlanets], whose
    error is thrown again.  The three errors thrown for a missing canvas, a
    missing context and a missing [PLANETS] are outside the model, so
    [newSolarSystem] says when a constructor called in that way throws, not
    when every constructor call does. *)
Definition newSolarSystem (cfg : Config) (planets : gmap string Planet)
    (now : num) : result SolarSystem :=
  let s :=
    mkSolarSystem (cfg_timeSpeed cfg) (Fin 0) false (cfg_showTrails cfg)
      ∅ (cfg_maxTrailLength cfg) in
  match initializePlanets cfg planets now s with
  | (s', None) => Ok s'
  | (_, Some message) => Throw message
  end.

(** The click handler of the reset button: it sets [currentTime] and calls
    [initializePlanets], logging the error if one is thrown. *)
Definition resetSimulation (cfg : Config) (planets : gmap string Planet)
    (now : num) (s : SolarSystem) : SolarSystem :=
  let t := if startAtCurrentDate cfg then (now - epoch cfg) / msPerDay else Fin 0 in
  fst (initializePlanets cfg planets now
         (mkSolarSystem (timeSpeed s) t (isPaused s) (showTrails s)
            (planetStates s) (maxTrailLength s))).

(** ** [update] *)

(** [v ** 2]. *)
Definition sq (v : num) : num := v * v.

(** [trail.push(p)] followed by one [trail.shift()] when the length exceeds
    [maxTrailLength]. *)
Definition pushTrail (maxTrailLength : nat) (trail : list Vec2) (p : Vec2)
  : list Vec2 :=
  let trail' := trail ++ [p] in
  if (maxTrailLength <? length trail')%nat then tail trail' else trail'.

(** The body of the [forEach] of [update], for one entry of [planetStates]. *)
Definition updatePlanet (currentTime : num) (showTrails : bool)
    (maxTrailLength : nat) (state : PlanetState) : PlanetState :=
  let planet := data state in
  let periodInDays := period planet * Fin 365.25 in
  if (periodInDays <=? Fin 0) || negb (isFinite periodInDays) then state
  else
    let meanAnomaly := meanAnomalyAt currentTime periodInDays in
    let position := calculateOrbitalPosition planet meanAnomaly in
    let velocity' := calculateOrbitalVelocity planet position in
    let r := Math_sqrt (sq (x position) + sq (y position)) in
    mkPlanetState planet meanAnomaly position
      (if r >? Fin 0
       then mkVec2 (neg (y position) / r * velocity') (x position / r * velocity')
       else velocity state)
      (if showTrails
       then pushTrail maxTrailLength (trail state) (mkVec2 (x position) (y position))
       else []).

(** [update(deltaTime)].  No statement of its [try] block throws on a
    well-typed object, so the [catch] block is not modelled. *)
Definition update (deltaTime : num) (s : SolarSystem) : SolarSystem :=
  if isPaused s then s
  else if negb (isFinite deltaTime) || isNaN deltaTime then s
  else
    let currentTime' := currentTime s + deltaTime * timeSpeed s in
    mkSolarSystem (timeSpeed s) currentTime' (isPaused s) (showTrails s)
      (updatePlanet currentTime' (showTrails s) (maxTrailLength s)
         <$> planetStates s)
      (maxTrailLength s).

(** ** Reachable states *)

(** The states of a simulation built from a configuration: the constructor,
    animation ticks, the reset button, and the controls that write
    [isPaused], [showTrails] and [timeSpeed] (any value is allowed here,
    which covers what the handlers store). *)
Inductive reachable (cfg : Config) (planets : gmap string Planet)
  : SolarSystem -> Prop :=
  | reach_new now s :
      newSolarSystem cfg planets now = Ok s -> reachable cfg planets s
  | reach_update deltaTime s :
      reachable cfg planets s -> reachable cfg planets (update deltaTime s)
  | reach_reset now s :
      reachable cfg planets s ->
      reachable cfg planets (resetSimulation cfg planets now s)
  | reach_control speed paused trails s :
      reachable cfg planets s ->
      reachable cfg planets
        (mkSolarSystem speed (currentTime s) paused trails
           (planetStates s) (maxTrailLength s)).



(** ** Definitions used by the statements *)

Local Open Scope R_scope.

(** The finite numbers of [JS] are exact reals: a product never overflows
    to an infinity and a square never underflows to zero, as they do in
    double precision.  The statements about formulas that multiply or
    square their inputs are therefore made for magnitudes at which the
    doubles of the code stay finite and do not vanish, so that every guard
    of the code takes the branch that the model takes; within that range
    the code differs from the model by rounding only.

    [representable v]: [v] is within the range of the doubles
    ([Number.MAX_VALUE] is about [1.797e308]). *)
Definition representable (v : R) : Prop := Rabs v <= 1e308.

(** [squarable v]: the square of [v], and its products and quotients with
    the constants [G], [AU] and [SOLAR_MASS], are within the range of the
    doubles and are not rounded to zero. *)
Definition squarable (v : R) : Prop := 1e-150 <= Rabs v <= 1e150.

(** Valid orbital elements at a scale the code can compute with: the
    perihelion and aphelion distances can be squared, and the period (in
    years) is far from the limits of the doubles. *)
Definition wellScaled (a e T : R) : Prop :=
  0 < a /\ 0 <= e < 1 /\
  squarable (a * (1 - e)) /\ squarable (a * (1 + e)) /\
  1e-100 <= T <= 1e100.

(** The guard of [update] that skips a body: its period in days is not
    positive or not finite. *)
Definition skipped (planet : Planet) : bool :=
  (period planet * Fin 365.25 <=? Fin 0)%num
  || negb (isFinite (period planet * Fin 365.25)%num).



(** Finite points, planets whose semi-major axis is not an infinity, and
    entries whose stored values are finite. *)
Definition finiteVec (v : Vec2) : Prop :=
  isFinite (x v) = true /\ isFinite (y v) = true.

Definition finiteAxis (planet : Planet) : Prop :=
  semiMajorAxis planet <> PInf /\ semiMajorAxis planet <> NInf.

Definition finiteState (state : PlanetState) : Prop :=
  finiteAxis (data state) /\ finiteVec (position state) /\
  finiteVec (velocity state).

(** The speed at distance [r] (in AU) from the focus, in km/s, for a
    semi-major axis of [a] AU. *)
Definition visViva (a r : R) : R :=
  sqrt (Rabs (6.67430e-11 * 1.989e30 * (2 / (r * 1.496e11) - 1 / (a * 1.496e11))))
  / 1000.



(** ** Example data *)

(** A small simulation used in the examples: the Earth alone, trails shown
    and capped at one point, started at the epoch. *)
Definition exampleConfig : Config :=
  {| cfg_timeSpeed := Fin 0.1;
     cfg_showTrails := true;
     cfg_maxTrailLength := 1;
     startAtCurrentDate := false;
     epoch := Fin 946728000000 |}.

Definition earth : Planet := mkPlanet (Fin 1.0) (Fin 0.017) (Fin 1.0).

Definition earthOnly : gmap string Planet := {[ "earth" := earth ]}.

Definition earthAtEpoch : PlanetState :=
  mkPlanetState earth (Fin 0) (calculateOrbitalPosition earth (Fin 0))
    (mkVec2 (Fin 0) (Fin 0)) [].

Definition exampleStart : SolarSystem :=
  mkSolarSystem (Fin 0.1) (Fin 0) false true {[ "earth" := earthAtEpoch ]} 1.

(** The same simulation, paused. *)
Definition examplePaused : SolarSystem :=
  mkSolarSystem (Fin 0.1) (Fin 0) true true {[ "earth" := earthAtEpoch ]} 1.

(** A body whose semi-major axis is [Infinity]. *)
Definition comet : Planet := mkPlanet PInf (Fin 0.5) (Fin 1).

Definition cometAtEpoch : PlanetState :=
  mkPlanetState comet (Fin 0) (calculateOrbitalPosition comet (Fin 0))
    (mkVec2 (Fin 0) (Fin 0)) [].

Definition cometStart : SolarSystem :=
  mkSolarSystem (Fin 0.1) (Fin 0) false true {[ "comet" := cometAtEpoch ]} 1.




(** The Earth of the examples after a tick that brings the time to day 10. *)
Definition earthAfterTick : PlanetState :=
  updatePlanet (Fin 10) true 1 earthAtEpoch.

(** ** The period of the third law *)

(** The value that [verifyKeplersThirdLaw] computes for a semi-major axis
    of [a] AU: [2 pi sqrt (a^3 / GM)] seconds, in years. *)
Definition keplerPeriod (a : R) : R :=
  2 * PI * sqrt (a * 1.496e11 * (a * 1.496e11) * (a * 1.496e11)
                 / (6.67430e-11 * 1.989e30))
  / (365.25 * 24 * 3600).

(** ** Rendering geometry: [draw], [drawOrbits], [drawPlanets],
    [drawPeriAphelion] *)

(** The fields of the object that only the display reads or writes. *)
Record View := mkView {
  centerX : num;
  centerY : num;
  baseScale : num;
  zoom : num;
  selectedPlanet : option string
}.

(** The scale of [draw], in pixels per AU, or the error it throws. *)
Definition drawScale (v : View) : result num :=
  let scale := (baseScale v * zoom v)%num in
  if negb (isFinite scale) || (scale <=? Fin 0)%num
  then Throw "Invalid scale value"
  else Ok scale.

(** The ellipse that [drawOrbits] strokes for a planet: the centre given to
    [ctx.translate] and the two radii given to [ctx.ellipse]. *)
Record Ellipse := mkEllipse {
  ellipseX : num;
  ellipseY : num;
  radiusX : num;
  radiusY : num
}.

Definition orbitEllipse (v : View) (scale : num) (planet : Planet) : Ellipse :=
  let a := (semiMajorAxis planet * scale)%num in
  let b := (a * Math_sqrt (Fin 1 - sq (eccentricity planet)))%num in
  let c := (a * eccentricity planet)%num in
  mkEllipse (centerX v - c)%num (centerY v) a b.

(** The screen coordinates at which [drawPlanets] and [drawTrails] put a
    point given in AU (the y axis is flipped). *)
Definition screenPosition (v : View) (scale : num) (pos : Vec2) : Vec2 :=
  mkVec2 (centerX v + x pos * scale)%num (centerY v - y pos * scale)%num.

(** The two markers of [drawPeriAphelion]. *)
Definition perihelionMarker (v : View) (scale : num) (planet : Planet) : Vec2 :=
  mkVec2
    (centerX v + semiMajorAxis planet * (Fin 1 - eccentricity planet) * scale)%num
    (centerY v).

Definition aphelionMarker (v : View) (scale : num) (planet : Planet) : Vec2 :=
  mkVec2
    (centerX v - semiMajorAxis planet * (Fin 1 + eccentricity planet) * scale)%num
    (centerY v).

(** The end of the velocity vector that [drawPlanets] draws from the
    screen position [screen] of a planet of display radius [radius]. *)
Definition velocityArrowTip (screen : Vec2) (radius : num) (vel : Vec2) : Vec2 :=
  let velMag := Math_sqrt (sq (x vel) + sq (y vel))%num in
  let velScale := Fin 2 in
  mkVec2 (x screen + (x vel / velMag) * radius * velScale)%num
         (y screen - (y vel / velMag) * radius * velScale)%num.

(** ** Controls: [setupKeyboardControls], [setupControls],
    [setupTouchControls], [animate] *)

(** [UI_SCALE] of the configuration file. *)
Definition timeSpeedMultiplier : num := Fin 0.1.
Definition zoomMultiplier : num := Fin 1.1.

(** The simulation together with its display state. *)
Definition App : Type := SolarSystem * View.

Definition withTimeSpeed (v : num) (s : SolarSystem) : SolarSystem :=
  mkSolarSystem v (currentTime s) (isPaused s) (showTrails s)
    (planetStates s) (maxTrailLength s).

Definition withPaused (b : bool) (s : SolarSystem) : SolarSystem :=
  mkSolarSystem (timeSpeed s) (currentTime s) b (showTrails s)
    (planetStates s) (maxTrailLength s).

Definition withShowTrails (b : bool) (s : SolarSystem) : SolarSystem :=
  mkSolarSystem (timeSpeed s) (currentTime s) (isPaused s) b
    (planetStates s) (maxTrailLength s).

Definition withZoom (z : num) (v : View) : View :=
  mkView (centerX v) (centerY v) (baseScale v) z (selectedPlanet v).

Definition withSelected (k : option string) (v : View) : View :=
  mkView (centerX v) (centerY v) (baseScale v) (zoom v) k.

(** [e.key] is one of the labels of a [case]. *)
Definition keyIn (key : string) (labels : list string) : bool :=
  bool_decide (key ∈ labels).

(** The [keydown] handler: the [switch] on [e.key]; the updates of the
    sliders' labels are left out. *)
Definition keydown (key : string) (app : App) : App :=
  let (s, v) := app in
  if keyIn key [" "] then (withPaused (negb (isPaused s)) s, v)
  else if keyIn key ["ArrowUp"; "+"; "="] then
    (s, withZoom (Math_min (Fin 22) (zoom v + Fin 0.6)%num) v)
  else if keyIn key ["ArrowDown"; "-"; "_"] then
    (s, withZoom (Math_max (Fin 1.1) (zoom v - Fin 0.6)%num) v)
  else if keyIn key ["ArrowRight"] then
    (withTimeSpeed (Math_min (Fin 1.0) (timeSpeed s + Fin 0.01)%num) s, v)
  else if keyIn key ["ArrowLeft"] then
    (withTimeSpeed (Math_max (Fin 0) (timeSpeed s - Fin 0.01)%num) s, v)
  else if keyIn key ["Escape"] then (s, withSelected None v)
  else if keyIn key ["1"] then (s, withSelected (Some "mercury") v)
  else if keyIn key ["2"] then (s, withSelected (Some "venus") v)
  else if keyIn key ["3"] then (s, withSelected (Some "earth") v)
  else if keyIn key ["4"] then (s, withSelected (Some "mars") v)
  else if keyIn key ["5"] then (s, withSelected (Some "jupiter") v)
  else if keyIn key ["6"] then (s, withSelected (Some "saturn") v)
  else if keyIn key ["7"] then (s, withSelected (Some "uranus") v)
  else if keyIn key ["8"] then (s, withSelected (Some "neptune") v)
  else app.

(** The [input] handler of the time-speed slider, for the number that
    [parseFloat] returns. *)
Definition timeSpeedInput (sliderValue : num) (s : SolarSystem) : SolarSystem :=
  if isNaN sliderValue || negb (isFinite sliderValue) then s
  else
    let actualSpeed := (sliderValue * timeSpeedMultiplier)%num in
    if (actualSpeed <? Fin 0)%num || (actualSpeed >? Fin 100)%num then s
    else withTimeSpeed actualSpeed s.

(** The [input] handler of the zoom slider. *)
Definition zoomInput (sliderValue : num) (v : View) : View :=
  if isNaN sliderValue || negb (isFinite sliderValue) then v
  else
    let actualZoom := (sliderValue * zoomMultiplier)%num in
    if (actualZoom <? Fin 0)%num || (actualZoom >? Fin 1000)%num then v
    else withZoom actualZoom v.

(** The zoom that a two-finger [touchmove] stores: [initialZoom] is the
    zoom when the pinch began, at finger distance [lastTouchDistance]. *)
Definition pinchZoom (initialZoom lastTouchDistance currentDistance : num)
    (v : View) : View :=
  if (lastTouchDistance >? Fin 0)%num
  then
    let scale := (currentDistance / lastTouchDistance)%num in
    withZoom (Math_max (Fin 1.1) (Math_min (Fin 22) (initialZoom * scale)%num)) v
  else v.

(** What the user and the animation loop do to a running page.  [Frame] is
    one call of [animate], which calls [update(1)]. *)
Inductive event : Type :=
  | Frame
  | KeyDown (key : string)
  | TimeSpeedSlider (sliderValue : num)
  | ZoomSlider (sliderValue : num)
  | Pinch (initialZoom lastTouchDistance currentDistance : num)
  | PausePlayClick
  | ResetClick (now : R)
  | ShowTrailsChange (checked : bool).

Definition handle (cfg : Config) (planets : gmap string Planet)
    (ev : event) (app : App) : App :=
  let (s, v) := app in
  match ev with
  | Frame => (update (Fin 1) s, v)
  | KeyDown key => keydown key app
  | TimeSpeedSlider sliderValue => (timeSpeedInput sliderValue s, v)
  | ZoomSlider sliderValue => (s, zoomInput sliderValue v)
  | Pinch initialZoom lastTouchDistance currentDistance =>
      (s, pinchZoom initialZoom lastTouchDistance currentDistance v)
  | PausePlayClick => (withPaused (negb (isPaused s)) s, v)
  | ResetClick now => (resetSimulation cfg planets (Fin now) s, v)
  | ShowTrailsChange checked => (withShowTrails checked s, v)
  end.

(** The page after a sequence of events, oldest first. *)
Definition play (cfg : Config) (planets : gmap string Planet)
    (events : list event) (app : App) : App :=
  foldl (fun app ev => handle cfg planets ev app) app events.


(** The ranges that the slider handlers accept: a finite time speed in
    [[0, 100]] and a finite zoom in [[0, 1000]], with a finite clock. *)
Definition controlsInRange (app : App) : Prop :=
  exists ts z t : R,
    timeSpeed app.1 = Fin ts /\ 0 <= ts <= 100 /\
    zoom app.2 = Fin z /\ 0 <= z <= 1000 /\
    currentTime app.1 = Fin t.

(** Touch events report finite finger positions, so the distances of a
    pinch and the zoom it started from are finite. *)
Definition finitePinch (ev : event) : Prop :=
  match ev with
  | Pinch initialZoom lastTouchDistance currentDistance =>
      isFinite initialZoom = true /\ isFinite lastTouchDistance = true /\
      isFinite currentDistance = true
  | _ => True
  end.

Definition isZoomSlider (ev : event) : bool :=
  match ev with
  | ZoomSlider _ => true
  | _ => false
  end.

(** A page as the constructor leaves it on a canvas whose smaller side is
    700 pixels, with the defaults of the configuration file. *)
Definition exampleView : View :=
  mkView (Fin 500) (Fin 350) (Fin 10) (Fin 1.1) None.

Definition exampleApp : App := (exampleStart, exampleView).

Definition exampleEvents : list event :=
  [KeyDown "ArrowUp"; Frame; Pinch (Fin 1.7) (Fin 100) (Fin 250);
   TimeSpeedSlider (Fin 50); KeyDown "ArrowRight"; ResetClick 946728000000;
   Frame].

(** * Properties *)

Local Open Scope R_scope.

(** ** Evaluation of the operations on numbers *)

Ltac num_unfold :=
  cbn [add sub mul div neg num_lt num_le num_gt num_ge Math_abs Math_sqrt Math_sin Math_cos
       Math_min Math_max isNaN isFinite truthy or_else inf_of_sign
       negb orb andb] in *.

(** ** Magnitudes within the range of the doubles *)

Lemma representable_pos (v : R) : 0 <= v <= 1e308 -> representable v.
Proof. intros H. unfold representable. rewrite Rabs_pos_eq; lra. Qed.

Lemma squarable_pos (v : R) : 1e-150 <= v <= 1e150 -> squarable v.
Proof. intros H. unfold squarable. rewrite Rabs_pos_eq; lra. Qed.

Lemma wellScaled_earth : wellScaled 1.0 0.017 1.0.
Proof.
  unfold wellScaled.
  split; [lra|]. split; [lra|].
  split; [apply squarable_pos; lra|]. split; [apply squarable_pos; lra|lra].
Qed.

Lemma wellScaled_not_skipped (a e T : R) :
  wellScaled a e T -> skipped (mkPlanet (Fin a) (Fin e) (Fin T)) = false.
Proof.
  intros (_ & _ & _ & _ & HT). unfold skipped. cbn [period mul num_le isFinite].
  rewrite bool_decide_eq_false_2; [reflexivity|lra].
Qed.

(** [dbl] on a value inside the range, on zero, and beyond the range. *)
Lemma dbl_inside (r : R) : 1e-300 <= Rabs r <= 1e300 -> dbl (Fin r) = Fin r.
Proof.
  intros H. unfold dbl, overflowThreshold, underflowThreshold.
  rewrite bool_decide_eq_false_2 by lra.
  rewrite bool_decide_eq_false_2 by lra. reflexivity.
Qed.

Lemma dbl_zero : dbl (Fin 0) = Fin 0.
Proof.
  unfold dbl, overflowThreshold, underflowThreshold. rewrite Rabs_R0.
  rewrite bool_decide_eq_false_2 by lra.
  rewrite bool_decide_eq_true_2 by lra. reflexivity.
Qed.

Lemma dbl_beyond (r : R) : 1.8e308 <= Rabs r -> dbl (Fin r) = inf_of_sign r.
Proof.
  intros H. unfold dbl, overflowThreshold.
  rewrite bool_decide_eq_true_2; [reflexivity|lra].
Qed.

Lemma sqrt_Fin (a : R) : 0 <= a -> Math_sqrt (Fin a) = Fin (sqrt a).
Proof. intros Ha. cbn. rewrite bool_decide_eq_false_2; [done | lra]. Qed.

(** ** The Newton-Raphson loop *)

(** [maxIterations] passes of the loop are enough: with more fuel the loop
    does the same. *)
Lemma newtonLoop_fuel (fuel : nat) M e tol st :
  (maxIterations <= fuel + iterations st)%nat ->
  newtonLoop (S fuel) M e tol st = newtonLoop fuel M e tol st.
Proof.
  revert st. induction fuel as [|fuel IH]; intros st Hn.
  - cbn [newtonLoop].
    replace (iterations st <? maxIterations)%nat with false.
    + by rewrite andb_false_r.
    + symmetry. apply Nat.ltb_ge. lia.
  - change (newtonLoop (S (S fuel)) M e tol st) with
      (if (Math_abs (delta st) >? tol)%num && (iterations st <? maxIterations)%nat
       then
         if (Math_abs (Fin 1 - e * Math_cos (E st)) <? Fin 1e-10)%num
         then mkNewton (E st) (delta st) (iterations st) true
         else
           newtonLoop (S fuel) M e tol
             (mkNewton (E st - (E st - e * Math_sin (E st) - M) / (Fin 1 - e * Math_cos (E st)))%num
                ((E st - e * Math_sin (E st) - M) / (Fin 1 - e * Math_cos (E st)))%num
                (S (iterations st)) false)
       else st).
    rewrite IH; [reflexivity | cbn; lia].
Qed.

(** When the current iterate solves Kepler's equation exactly, the loop
    returns it, whatever way it is left. *)
Lemma newtonLoop_solution (fuel : nat) (M e Ev : R) tol st :
  E st = Fin Ev ->
  Ev - e * sin Ev - M = 0 ->
  E (newtonLoop fuel (Fin M) (Fin e) tol st) = Fin Ev.
Proof.
  revert st. induction fuel as [|fuel IH]; intros st HE Hsol; [done|].
  cbn [newtonLoop].
  destruct ((Math_abs (delta st) >? tol)%num && (iterations st <? maxIterations)%nat);
    [|done].
  rewrite HE.
  destruct (Math_abs (Fin 1 - Fin e * Math_cos (Fin Ev)) <? Fin 1e-10)%num eqn:Hden;
    [done|].
  apply IH; [|done].
  cbn [E]. num_unfold. apply bool_decide_eq_false in Hden.
  assert (Hz : 1 + - (e * cos Ev) <> 0).
  { intros Hz. rewrite Hz, Rabs_R0 in Hden. lra. }
  rewrite bool_decide_eq_false_2 by done. f_equal.
  replace (Ev + - (e * sin Ev) + - M) with 0 by lra.
  unfold Rdiv. lra.
Qed.

(** ** Input checks of the solver *)

(** Settle by [lra] the real comparisons of the goal. *)
Ltac rdecide :=
  repeat (num_unfold; unfold num_gt, num_ge, sub, or_else, inf_of_sign;
          match goal with
          | |- context [bool_decide ?P] =>
              first [ rewrite (bool_decide_eq_true_2 P) by lra
                    | rewrite (bool_decide_eq_false_2 P) by lra ]
          end);
  num_unfold.

Lemma clampEccentricity_range (e : num) :
  isNaN e = false ->
  exists c : R,
    clampEccentricity e = Fin c /\ 0 <= c < 1 /\
    (((e <? Fin 0) || (e >=? Fin 1))%num = true -> 0 <= c <= 0.99).
Proof.
  intros Hnan. unfold clampEccentricity.
  destruct e as [| | |r]; try discriminate.
  - exists 0.99. rdecide. split; [reflexivity|]. split; lra.
  - exists 0. rdecide. split; [reflexivity|]. split; lra.
  - destruct (Rlt_dec r 0) as [Hneg|Hneg]; [|destruct (Rle_dec 1 r) as [Hbig|Hbig]].
    + exists 0. rdecide. split; [reflexivity|]. split; lra.
    + exists 0.99. rdecide. split; [reflexivity|]. split; lra.
    + exists r. rdecide. split; [reflexivity|]. split; [lra | discriminate].
Qed.

(** What the clamp does to every eccentricity that is not NaN: a value of
    [[0, 1)] is left as it is, a negative one (and [-Infinity]) becomes [0],
    and a value of at least [1] (and [Infinity]) becomes [0.99]. *)
Lemma clampEccentricity_spec (e : num) :
  isNaN e = false ->
  exists c : R,
    clampEccentricity e = Fin c /\
    (forall v : R, e = Fin v -> 0 <= v < 1 -> c = v) /\
    ((e <? Fin 0)%num = true -> c = 0) /\
    ((e >=? Fin 1)%num = true -> c = 0.99).
Proof.
  intros Hnan. unfold clampEccentricity.
  destruct e as [| | |r]; try discriminate.
  - exists 0.99. rdecide. split; [reflexivity|]. by repeat split.
  - exists 0. rdecide. split; [reflexivity|]. by repeat split.
  - destruct (Rlt_dec r 0) as [Hneg|Hneg]; [|destruct (Rle_dec 1 r) as [Hbig|Hbig]].
    + exists 0. rdecide. split; [reflexivity|].
      split; [intros v [= <-]; lra|]. by split.
    + exists 0.99. rdecide. split; [reflexivity|].
      split; [intros v [= <-]; lra|]. by split.
    + exists r. rdecide. split; [reflexivity|].
      split; [by intros v [= <-]|]. by split.
Qed.

(** C9.  A NaN mean anomaly or eccentricity makes the solver return [0] at
    once.  Otherwise the Newton loop runs with the clamped eccentricity [c],
    a real number of [[0, 1)]: [c] is the argument itself when that lies in
    [[0, 1)], [0] when the argument is negative, and [0.99] when the
    argument is [1] or more, so the loop never runs with an eccentricity of
    [1] or more. *)
Theorem solveKeplersEquation_inputs (M e tol : num) :
  (isNaN M || isNaN e = true -> solveKeplersEquation M e tol = Fin 0) /\
  (isNaN M || isNaN e = false ->
   exists c : R,
     clampEccentricity e = Fin c /\
     (forall v : R, e = Fin v -> 0 <= v < 1 -> c = v) /\
     ((e <? Fin 0)%num = true -> c = 0) /\
     ((e >=? Fin 1)%num = true -> c = 0.99) /\
     0 <= c < 1 /\
     solveKeplersEquation M e tol =
       E (newtonLoop maxIterations M (Fin c) tol (mkNewton M (Fin 1) 0 false))).
Proof.
  split.
  - intros H. unfold solveKeplersEquation. by rewrite H.
  - intros H. apply orb_false_iff in H as [HM He].
    destruct (clampEccentricity_spec e He) as (c & Hc & Hin & Hneg & Hbig).
    destruct (clampEccentricity_range e He) as (c' & Hc' & Hr & _).
    rewrite Hc in Hc'. injection Hc' as <-.
    exists c. do 5 (split; [done|]).
    unfold solveKeplersEquation, solveKeplersLoop.
    by rewrite HM, He, Hc.
Qed.

(** A NaN mean anomaly gives [0]; [1.5] is clamped to [0.99], [-0.3] to [0],
    and [0.5] is used as it is. *)
Lemma solveKeplersEquation_inputs_witness :
  solveKeplersEquation NaN (Fin 0.5) defaultTolerance = Fin 0 /\
  clampEccentricity (Fin 1.5) = Fin 0.99 /\
  clampEccentricity (Fin (-0.3)) = Fin 0 /\
  clampEccentricity (Fin 0.5) = Fin 0.5.
Proof.
  split; [|split; [|split]].
  - apply (solveKeplersEquation_inputs NaN (Fin 0.5) defaultTolerance).
    reflexivity.
  - destruct (solveKeplersEquation_inputs (Fin 0) (Fin 1.5) defaultTolerance)
      as [_ H].
    destruct (H eq_refl) as (c & Hc & _ & _ & Hbig & _).
    rewrite Hc. f_equal. apply Hbig. by rdecide.
  - destruct (solveKeplersEquation_inputs (Fin 0) (Fin (-0.3)) defaultTolerance)
      as [_ H].
    destruct (H eq_refl) as (c & Hc & _ & Hneg & _).
    rewrite Hc. f_equal. apply Hneg. by rdecide.
  - destruct (solveKeplersEquation_inputs (Fin 0) (Fin 0.5) defaultTolerance)
      as [_ H].
    destruct (H eq_refl) as (c & Hc & Hin & _).
    rewrite Hc. f_equal. apply (Hin 0.5); [reflexivity|lra].
Defined.

(** ** Ticks that do nothing *)

(** C8.  When the simulation is paused, or when [deltaTime] is NaN or an
    infinity, [update] returns the object unchanged: the simulation time
    and every entry of [planetStates] are what they were. *)
Theorem update_noop (deltaTime : num) (s : SolarSystem) :
  isPaused s = true \/ isFinite deltaTime = false ->
  update deltaTime s = s.
Proof.
  intros [Hp | Hd]; unfold update.
  - by rewrite Hp.
  - rewrite Hd. cbn [negb orb]. by destruct (isPaused s).
Qed.

Lemma update_noop_witness :
  update (Fin 1) examplePaused = examplePaused /\
  update NaN exampleStart = exampleStart /\
  update PInf exampleStart = exampleStart.
Proof.
  split; [|split].
  - apply update_noop. left. reflexivity.
  - apply update_noop. right. reflexivity.
  - apply update_noop. right. reflexivity.
Defined.

(** ** Positions *)

Lemma clampEccentricity_valid (e : R) :
  0 <= e < 1 -> clampEccentricity (Fin e) = Fin e.
Proof. intros He. unfold clampEccentricity. by rdecide. Qed.

(** The solver returns an exact solution when the initial guess is one. *)
Lemma solveKeplersEquation_solution (M e : R) tol :
  0 <= e < 1 ->
  M - e * sin M - M = 0 ->
  solveKeplersEquation (Fin M) (Fin e) tol = Fin M.
Proof.
  intros He Hsol. unfold solveKeplersEquation, solveKeplersLoop.
  rewrite clampEccentricity_valid by done. cbn [isNaN orb].
  by apply newtonLoop_solution.
Qed.

(** With valid elements and a finite eccentric anomaly the [try] block
    succeeds. *)
Lemma calculateOrbitalPosition_valid (a e M Ev : R) (T : num) :
  0 < a -> 0 <= e < 1 ->
  solveKeplersEquation (Fin M) (Fin e) defaultTolerance = Fin Ev ->
  calculateOrbitalPosition (mkPlanet (Fin a) (Fin e) T) (Fin M) =
    mkVec2 (Fin (a * (cos Ev - e)))
           (Fin (a * sqrt (1 - e * e) * sin Ev)).
Proof.
  intros Ha He HE.
  unfold calculateOrbitalPosition, calculateOrbitalPosition_try.
  cbn [semiMajorAxis eccentricity]. rewrite HE.
  assert (0 <= 1 + - (e * e)) by nra.
  by rdecide.
Qed.

(** C2, as the code has it.  For [a > 0] and [0 <= e < 1] with an
    aphelion distance [a (1 + e)] within the range of the doubles, the
    position at mean anomaly [0] is the perihelion [(a (1 - e), 0)] and the
    position at mean anomaly [pi] is the aphelion [(- a (1 + e), 0)]. *)
Theorem position_perihelion_aphelion (a e : R) (T : num) :
  0 < a -> 0 <= e < 1 -> representable (a * (1 + e)) ->
  calculateOrbitalPosition (mkPlanet (Fin a) (Fin e) T) (Fin 0) =
    mkVec2 (Fin (a * (1 - e))) (Fin 0) /\
  calculateOrbitalPosition (mkPlanet (Fin a) (Fin e) T) (Fin PI) =
    mkVec2 (Fin (- a * (1 + e))) (Fin 0).
Proof.
  intros Ha He _. split.
  - assert (HE : solveKeplersEquation (Fin 0) (Fin e) defaultTolerance = Fin 0).
    { apply solveKeplersEquation_solution; [done | rewrite sin_0; lra]. }
    rewrite (calculateOrbitalPosition_valid a e 0 0 T Ha He HE).
    rewrite cos_0, sin_0. f_equal; f_equal; lra.
  - assert (HE : solveKeplersEquation (Fin PI) (Fin e) defaultTolerance = Fin PI).
    { apply solveKeplersEquation_solution; [done | rewrite sin_PI; lra]. }
    rewrite (calculateOrbitalPosition_valid a e PI PI T Ha He HE).
    rewrite cos_PI, sin_PI. f_equal; f_equal; lra.
Qed.

(** The Earth of the configuration file: [(0.983, 0)] and [(-1.017, 0)]. *)
Lemma position_perihelion_aphelion_witness :
  calculateOrbitalPosition (mkPlanet (Fin 1.0) (Fin 0.017) (Fin 1.0)) (Fin 0) =
    mkVec2 (Fin (1.0 * (1 - 0.017))) (Fin 0) /\
  calculateOrbitalPosition (mkPlanet (Fin 1.0) (Fin 0.017) (Fin 1.0)) (Fin PI) =
    mkVec2 (Fin (- (1.0) * (1 + 0.017))) (Fin 0).
Proof.
  apply (position_perihelion_aphelion 1.0 0.017 (Fin 1.0)); [lra|lra|].
  apply representable_pos. lra.
Defined.

(** One pass of the loop with [dbl]. *)
Lemma newtonLoop_dbl_S (fuel : nat) (M e tol : num) (st : Newton) :
  newtonLoop_dbl (S fuel) M e tol st =
    if ((Math_abs (delta st) >? tol)%num && (iterations st <? maxIterations)%nat)%bool
    then
      if (Math_abs (dbl (Fin 1 - dbl (e * Math_cos (E st)))) <? Fin 1e-10)%num
      then mkNewton (E st) (delta st) (iterations st) true
      else
        newtonLoop_dbl fuel M e tol
          (mkNewton
             (dbl (E st - dbl (dbl (dbl (E st - dbl (e * Math_sin (E st))) - M)
                               / dbl (Fin 1 - dbl (e * Math_cos (E st))))))%num
             (dbl (dbl (dbl (E st - dbl (e * Math_sin (E st))) - M)
                   / dbl (Fin 1 - dbl (e * Math_cos (E st)))))%num
             (S (iterations st)) false)
    else st.
Proof. reflexivity. Qed.

(** Evaluate one [dbl] of the goal: on zero, inside the range, or beyond
    it. *)
Ltac dbl_bounds r :=
  first [rewrite (Rabs_pos_eq r) by lra | rewrite (Rabs_left r) by lra]; lra.

Ltac dbl_step :=
  match goal with
  | |- context [dbl (Fin ?r)] =>
      first
        [ rewrite (dbl_inside r) by dbl_bounds r
        | rewrite (dbl_beyond r) by dbl_bounds r
        | replace r with 0 by lra; rewrite dbl_zero ]
  end.

(** Settle one real comparison of the goal. *)
Ltac bool_step :=
  match goal with
  | |- context [bool_decide ?P] =>
      first
        [ rewrite (bool_decide_eq_true_2 P) by lra
        | rewrite (bool_decide_eq_false_2 P) by lra
        | rewrite (bool_decide_eq_true_2 P)
            by (first [rewrite Rabs_pos_eq by lra | rewrite Rabs_left by lra]; lra)
        | rewrite (bool_decide_eq_false_2 P)
            by (first [rewrite Rabs_pos_eq by lra | rewrite Rabs_left by lra]; lra) ]
  end.

Ltac dbl_eval := repeat (first [dbl_step | bool_step]; num_unfold).

(** With [dbl] too the solver returns [pi] for the mean anomaly [pi]. *)
Lemma solveKeplersEquation_dbl_PI :
  solveKeplersEquation_dbl (Fin PI) (Fin 0.9) defaultTolerance = Fin PI.
Proof.
  pose proof PI2_3_2 as Hpi0. pose proof PI_4 as Hpi4.
  unfold solveKeplersEquation_dbl. rewrite clampEccentricity_valid by lra.
  cbn [isNaN orb]. change maxIterations with (S (S 98)) at 1.
  rewrite newtonLoop_dbl_S. cbn [E delta iterations].
  unfold defaultTolerance, maxIterations. num_unfold.
  rewrite cos_PI, sin_PI.
  rewrite (bool_decide_eq_true_2 (1e-6 < Rabs 1)) by (rewrite Rabs_R1; lra).
  cbn [Nat.ltb Nat.leb andb].
  dbl_eval.
  rewrite newtonLoop_dbl_S. cbn [E delta iterations]. num_unfold.
  dbl_eval.
  cbn [E]. f_equal. lra.
Qed.

(** Beyond that range the claim fails.  For [a = 1e308] and [e = 0.9] the
    abscissa [a * (cos E - e)] at the aphelion is [-1.9e308], which
    overflows to [-Infinity]: the result check throws and the position
    returned for the mean anomaly [pi] is the fallback [(1e308, 0)]. *)
Lemma aphelion_lost_to_overflow :
  0 < 1e308 /\ 0 <= 0.9 < 1 /\
  calculateOrbitalPosition_dbl (mkPlanet (Fin 1e308) (Fin 0.9) (Fin 1)) (Fin PI) =
    mkVec2 (Fin 1e308) (Fin 0) /\
  calculateOrbitalPosition_dbl (mkPlanet (Fin 1e308) (Fin 0.9) (Fin 1)) (Fin PI) <>
    mkVec2 (Fin (- 1e308 * (1 + 0.9))) (Fin 0).
Proof.
  assert (Hpos : calculateOrbitalPosition_dbl
                   (mkPlanet (Fin 1e308) (Fin 0.9) (Fin 1)) (Fin PI) =
                 mkVec2 (Fin 1e308) (Fin 0)).
  { unfold calculateOrbitalPosition_dbl, calculateOrbitalPosition_try_dbl.
    cbn [semiMajorAxis eccentricity]. rewrite solveKeplersEquation_dbl_PI.
    num_unfold. rewrite cos_PI, sin_PI. dbl_eval.
    unfold inf_of_sign. dbl_eval. unfold or_else. num_unfold. by dbl_eval. }
  split; [lra|]. split; [lra|]. split; [exact Hpos|].
  rewrite Hpos. intros [= H]. lra.
Qed.

(** C6.  With eccentricity [0] the solver returns the mean anomaly itself,
    for every finite mean anomaly and every tolerance, and for [a > 0] the
    position lies at distance [a] from the origin. *)
Theorem circular_orbit (a M : R) (T tol : num) :
  0 < a ->
  solveKeplersEquation (Fin M) (Fin 0) tol = Fin M /\
  (let p := calculateOrbitalPosition (mkPlanet (Fin a) (Fin 0) T) (Fin M) in
   Math_sqrt (sq (x p) + sq (y p)) = Fin a).
Proof.
  intros Ha.
  assert (Hsolve : forall tol', solveKeplersEquation (Fin M) (Fin 0) tol' = Fin M).
  { intros tol'. apply solveKeplersEquation_solution; lra. }
  split; [apply Hsolve|].
  rewrite (calculateOrbitalPosition_valid a 0 M M T Ha ltac:(lra) (Hsolve _)).
  cbn [x y sq mul add].
  replace (1 - 0 * 0) with 1 by lra. rewrite sqrt_1.
  pose proof (sin2_cos2 M) as Hsc. unfold Rsqr in Hsc.
  replace (a * (cos M - 0) * (a * (cos M - 0)) +
           a * 1 * sin M * (a * 1 * sin M))
    with (a * a) by nra.
  rewrite sqrt_Fin by nra. f_equal. apply sqrt_square. lra.
Qed.

Lemma circular_orbit_witness :
  solveKeplersEquation (Fin 2) (Fin 0) defaultTolerance = Fin 2 /\
  Math_sqrt
    (sq (x (calculateOrbitalPosition (mkPlanet (Fin 5) (Fin 0) (Fin 1)) (Fin 2))) +
     sq (y (calculateOrbitalPosition (mkPlanet (Fin 5) (Fin 0) (Fin 1)) (Fin 2))))
  = Fin 5.
Proof. apply (circular_orbit 5 2 (Fin 1) defaultTolerance). lra. Defined.

(** ** The fallback position *)

(** A product with an infinity is never finite. *)
Lemma mul_PInf_not_finite (v : num) : isFinite (PInf * v)%num = false.
Proof.
  destruct v; cbn; try done. case_bool_decide; [done|].
  unfold inf_of_sign. by case_bool_decide.
Qed.

(** One pass of the loop. *)
Lemma newtonLoop_S (fuel : nat) (M e tol : num) (st : Newton) :
  newtonLoop (S fuel) M e tol st =
    if ((Math_abs (delta st) >? tol)%num && (iterations st <? maxIterations)%nat)%bool
    then
      if (Math_abs (Fin 1 - e * Math_cos (E st)) <? Fin 1e-10)%num
      then mkNewton (E st) (delta st) (iterations st) true
      else
        newtonLoop fuel M e tol
          (mkNewton
             (E st - (E st - e * Math_sin (E st) - M) / (Fin 1 - e * Math_cos (E st)))%num
             ((E st - e * Math_sin (E st) - M) / (Fin 1 - e * Math_cos (E st)))%num
             (S (iterations st)) false)
    else st.
Proof. reflexivity. Qed.

(** From an infinite mean anomaly the first Newton step computes
    [Math.cos] of an infinity: the iterate becomes NaN and the loop stops. *)
Lemma newtonLoop_infinite (fuel : nat) (M : num) (c : R) :
  isNaN M = false -> isFinite M = false ->
  E (newtonLoop (S (S fuel)) M (Fin c) defaultTolerance (mkNewton M (Fin 1) 0 false))
  = NaN.
Proof.
  intros Hnan Hfin. rewrite newtonLoop_S. cbn [E delta iterations].
  unfold defaultTolerance.
  assert (Hguard : ((Math_abs (Fin 1) >? Fin 1e-6)%num && (0 <? maxIterations)%nat)%bool = true).
  { rdecide. rewrite Rabs_R1. by rdecide. }
  rewrite Hguard.
  destruct M; try discriminate; cbn [Math_cos mul sub add neg Math_abs num_lt];
    rewrite newtonLoop_S; reflexivity.
Qed.

Lemma solveKeplersEquation_infinite (M : num) (e : R) :
  isNaN M = false -> isFinite M = false ->
  solveKeplersEquation M (Fin e) defaultTolerance = NaN.
Proof.
  intros Hnan Hfin. unfold solveKeplersEquation, solveKeplersLoop.
  rewrite Hnan. cbn [isNaN orb].
  destruct (clampEccentricity_range (Fin e) eq_refl) as (c & -> & _).
  change maxIterations with (S (S 98)). by apply newtonLoop_infinite.
Qed.

(** Whenever the [try] block throws, the result is the fallback. *)
Lemma calculateOrbitalPosition_throw (planet : Planet) (M : num) message :
  calculateOrbitalPosition_try planet M = Throw message ->
  calculateOrbitalPosition planet M =
    mkVec2 (semiMajorAxis planet ||| Fin 1)%num (Fin 0).
Proof. intros H. unfold calculateOrbitalPosition. by rewrite H. Qed.

Lemma calculateOrbitalPosition_invalid (planet : Planet) (M : num) :
  (isNaN (semiMajorAxis planet) || (semiMajorAxis planet <=? Fin 0)%num
   || isNaN (eccentricity planet) || (eccentricity planet <? Fin 0)%num
   || (eccentricity planet >=? Fin 1)%num || negb (isFinite M)) = true ->
  exists message, calculateOrbitalPosition_try planet M = Throw message.
Proof.
  intros H. unfold calculateOrbitalPosition_try.
  destruct (isNaN (semiMajorAxis planet)); [by eexists|].
  destruct (semiMajorAxis planet <=? Fin 0)%num; [by eexists|].
  destruct (eccentricity planet) as [| | |e]; try (by eexists).
  destruct (Fin e <? Fin 0)%num; [by eexists|].
  destruct (Fin e >=? Fin 1)%num; [by eexists|].
  cbn [orb isNaN] in H |- *. apply negb_true_iff in H.
  destruct (isNaN M) eqn:HM; [by eexists|].
  rewrite solveKeplersEquation_infinite by done.
  destruct (semiMajorAxis planet); by eexists.
Qed.

(** C4, as the code has it.  When a validation of [calculateOrbitalPosition]
    fails (the semi-major axis is NaN or not positive, the eccentricity is
    NaN or outside [[0, 1)], or the mean anomaly is not finite), the function
    returns [(planet.semiMajorAxis || 1, 0)]: [(1, 0)] when the semi-major
    axis is [0] or NaN, and [(semiMajorAxis, 0)] for every other finite
    value, a negative one included.  An infinite semi-major axis is left
    out of this statement: the fallback is then the infinite axis itself,
    which is not a position. *)
Theorem calculateOrbitalPosition_fallback (planet : Planet) (M : num) :
  (isNaN (semiMajorAxis planet) || (semiMajorAxis planet <=? Fin 0)%num
   || isNaN (eccentricity planet) || (eccentricity planet <? Fin 0)%num
   || (eccentricity planet >=? Fin 1)%num || negb (isFinite M)) = true ->
  (semiMajorAxis planet = NaN \/ semiMajorAxis planet = Fin 0 ->
   calculateOrbitalPosition planet M = mkVec2 (Fin 1) (Fin 0)) /\
  (forall a : R, semiMajorAxis planet = Fin a -> a <> 0 ->
   calculateOrbitalPosition planet M = mkVec2 (Fin a) (Fin 0)).
Proof.
  intros H. destruct (calculateOrbitalPosition_invalid planet M H) as [m Hm].
  rewrite (calculateOrbitalPosition_throw _ _ _ Hm). split.
  - intros [-> | ->]; [reflexivity|]. unfold or_else. by rdecide.
  - intros a -> Hzero. unfold or_else. cbn [truthy].
    by rewrite bool_decide_eq_false_2.
Qed.

Lemma calculateOrbitalPosition_fallback_witness :
  calculateOrbitalPosition (mkPlanet (Fin 0) (Fin 0.5) (Fin 1)) (Fin 0) =
    mkVec2 (Fin 1) (Fin 0) /\
  calculateOrbitalPosition (mkPlanet (Fin 2) (Fin 1.5) (Fin 1)) (Fin 0) =
    mkVec2 (Fin 2) (Fin 0) /\
  calculateOrbitalPosition (mkPlanet (Fin 2) (Fin 0.5) (Fin 1)) PInf =
    mkVec2 (Fin 2) (Fin 0).
Proof.
  split; [|split].
  - refine (proj1 (calculateOrbitalPosition_fallback
                     (mkPlanet (Fin 0) (Fin 0.5) (Fin 1)) (Fin 0) _) _).
    + cbn [semiMajorAxis eccentricity]. by rdecide.
    + by right.
  - refine (proj2 (calculateOrbitalPosition_fallback
                     (mkPlanet (Fin 2) (Fin 1.5) (Fin 1)) (Fin 0) _) 2 _ _).
    + cbn [semiMajorAxis eccentricity]. by rdecide.
    + reflexivity.
    + lra.
  - refine (proj2 (calculateOrbitalPosition_fallback
                     (mkPlanet (Fin 2) (Fin 0.5) (Fin 1)) PInf _) 2 _ _).
    + cbn [semiMajorAxis eccentricity]. by rdecide.
    + reflexivity.
    + lra.
Defined.

(** A negative semi-major axis fails the validation, and the position
    returned is [(-5, 0)], not [(1, 0)]. *)
Lemma calculateOrbitalPosition_negative_axis :
  (semiMajorAxis (mkPlanet (Fin (-5)) (Fin 0.1) (Fin 1)) <=? Fin 0)%num = true /\
  calculateOrbitalPosition (mkPlanet (Fin (-5)) (Fin 0.1) (Fin 1)) (Fin 0) =
    mkVec2 (Fin (-5)) (Fin 0) /\
  calculateOrbitalPosition (mkPlanet (Fin (-5)) (Fin 0.1) (Fin 1)) (Fin 0) <>
    mkVec2 (Fin 1) (Fin 0).
Proof.
  assert (Hpos : calculateOrbitalPosition (mkPlanet (Fin (-5)) (Fin 0.1) (Fin 1)) (Fin 0) =
            mkVec2 (Fin (-5)) (Fin 0)).
  { unfold calculateOrbitalPosition, calculateOrbitalPosition_try.
    cbn [semiMajorAxis eccentricity]. by rdecide. }
  split; [|split].
  - cbn [semiMajorAxis]. by rdecide.
  - exact Hpos.
  - rewrite Hpos. intros [= H]. lra.
Qed.

(** ** Vis-viva speed *)

Lemma calculateOrbitalVelocity_finite (a e px py : R) (T : num) :
  0 < a -> 0 < sqrt (px * px + py * py) ->
  calculateOrbitalVelocity (mkPlanet (Fin a) e T) (mkVec2 (Fin px) (Fin py)) =
    Fin (visViva a (sqrt (px * px + py * py))).
Proof.
  intros Ha Hr.
  unfold calculateOrbitalVelocity, calculateOrbitalVelocity_try, visViva.
  cbn [semiMajorAxis x y]. unfold G, AU, SOLAR_MASS.
  assert (0 <= px * px + py * py) by nra.
  set (r := sqrt (px * px + py * py)) in *.
  assert (r * 1.496e11 <> 0) by nra.
  assert (a * 1.496e11 <> 0) by nra.
  num_unfold.
  rewrite (bool_decide_eq_false_2 (px * px + py * py < 0)) by lra.
  fold r. num_unfold.
  rewrite (bool_decide_eq_false_2 (r * 1.496e11 <= 0)) by nra.
  rewrite (bool_decide_eq_false_2 (a * 1.496e11 <= 0)) by nra.
  num_unfold.
  rewrite (bool_decide_eq_false_2 (r * 1.496e11 = 0)) by done.
  rewrite (bool_decide_eq_false_2 (a * 1.496e11 = 0)) by done.
  num_unfold.
  match goal with
  | |- context [bool_decide (Rabs ?v < 0)] =>
      rewrite (bool_decide_eq_false_2 (Rabs v < 0))
        by (pose proof (Rabs_pos v); lra)
  end.
  num_unfold.
  rewrite (bool_decide_eq_false_2 (1000 = 0)) by lra.
  reflexivity.
Qed.

(** Vis-viva at the two apsides: [v^2 = k (1 + e) / (1 - e)] at perihelion
    and [k (1 - e) / (1 + e)] at aphelion, for the same [k > 0]. *)
Lemma visViva_apsides (a e : R) :
  0 < a -> 0 < e < 1 ->
  visViva a (a * (1 + e)) < visViva a (a * (1 - e)).
Proof.
  intros Ha He. unfold visViva.
  apply Rmult_lt_compat_r; [lra|].
  set (k := 6.67430e-11 * 1.989e30 / (a * 1.496e11)).
  assert (Hk : 0 < k).
  { unfold k. apply Rdiv_lt_0_compat; nra. }
  replace (6.67430e-11 * 1.989e30 * (2 / (a * (1 + e) * 1.496e11) - 1 / (a * 1.496e11)))
    with (k * ((1 - e) / (1 + e))) by (unfold k; field; lra).
  replace (6.67430e-11 * 1.989e30 * (2 / (a * (1 - e) * 1.496e11) - 1 / (a * 1.496e11)))
    with (k * ((1 + e) / (1 - e))) by (unfold k; field; lra).
  assert (Hlo : 0 < (1 - e) / (1 + e)) by (apply Rdiv_lt_0_compat; lra).
  assert (Hlt : (1 - e) / (1 + e) < (1 + e) / (1 - e)).
  { apply (Rmult_lt_reg_r ((1 + e) * (1 - e))); [nra|].
    replace ((1 - e) / (1 + e) * ((1 + e) * (1 - e))) with ((1 - e) * (1 - e))
      by (field; lra).
    replace ((1 + e) / (1 - e) * ((1 + e) * (1 - e))) with ((1 + e) * (1 + e))
      by (field; lra).
    nra. }
  rewrite !Rabs_pos_eq by nra.
  apply sqrt_lt_1_alt. nra.
Qed.

(** C7, as the code has it.  For [a > 0] and [0 < e < 1], with the two
    distances [a (1 - e)] and [a (1 + e)] in the range where the code can
    square them, the speed computed at the perihelion [(a (1 - e), 0)] is
    strictly greater than the speed computed at the aphelion
    [(- a (1 + e), 0)]; both are finite. *)
Theorem velocity_perihelion_exceeds_aphelion (a e : R) (T : num) :
  0 < a -> 0 < e < 1 ->
  squarable (a * (1 - e)) -> squarable (a * (1 + e)) ->
  exists vp va : R,
    calculateOrbitalVelocity (mkPlanet (Fin a) (Fin e) T)
      (mkVec2 (Fin (a * (1 - e))) (Fin 0)) = Fin vp /\
    calculateOrbitalVelocity (mkPlanet (Fin a) (Fin e) T)
      (mkVec2 (Fin (- a * (1 + e))) (Fin 0)) = Fin va /\
    va < vp.
Proof.
  intros Ha He _ _.
  assert (Hp : sqrt (a * (1 - e) * (a * (1 - e)) + 0 * 0) = a * (1 - e)).
  { replace (a * (1 - e) * (a * (1 - e)) + 0 * 0)
      with ((a * (1 - e)) * (a * (1 - e))) by lra.
    apply sqrt_square. nra. }
  assert (Hq : sqrt (- a * (1 + e) * (- a * (1 + e)) + 0 * 0) = a * (1 + e)).
  { replace (- a * (1 + e) * (- a * (1 + e)) + 0 * 0)
      with ((a * (1 + e)) * (a * (1 + e))) by lra.
    apply sqrt_square. nra. }
  exists (visViva a (a * (1 - e))), (visViva a (a * (1 + e))).
  split; [|split].
  - rewrite calculateOrbitalVelocity_finite by (try done; rewrite Hp; nra).
    by rewrite Hp.
  - rewrite calculateOrbitalVelocity_finite by (try done; rewrite Hq; nra).
    by rewrite Hq.
  - by apply visViva_apsides.
Qed.

(** Mercury: [a = 0.387], [e = 0.206]. *)
Lemma velocity_perihelion_exceeds_aphelion_witness :
  exists vp va : R,
    calculateOrbitalVelocity (mkPlanet (Fin 0.387) (Fin 0.206) (Fin 0.241))
      (mkVec2 (Fin (0.387 * (1 - 0.206))) (Fin 0)) = Fin vp /\
    calculateOrbitalVelocity (mkPlanet (Fin 0.387) (Fin 0.206) (Fin 0.241))
      (mkVec2 (Fin (- (0.387) * (1 + 0.206))) (Fin 0)) = Fin va /\
    va < vp.
Proof.
  apply (velocity_perihelion_exceeds_aphelion 0.387 0.206 (Fin 0.241));
    [lra | lra | apply squarable_pos; lra | apply squarable_pos; lra].
Defined.

(** A position whose abscissa is [1e155] or more in magnitude has a square
    beyond the range of the doubles: [r] is [Infinity], the code throws
    "Invalid distance" and the speed returned is the fallback [0]. *)
Lemma calculateOrbitalVelocity_dbl_overflow (planet : Planet) (px : R) :
  1e155 <= Rabs px ->
  calculateOrbitalVelocity_dbl planet (mkVec2 (Fin px) (Fin 0)) = Fin 0.
Proof.
  intros Hpx.
  unfold calculateOrbitalVelocity_dbl, calculateOrbitalVelocity_try_dbl, AU.
  cbn [x y]. num_unfold.
  assert (Hsq : 1.8e308 <= Rabs (px * px)).
  { rewrite Rabs_mult. pose proof (Rabs_pos px). nra. }
  rewrite (dbl_beyond (px * px) Hsq). unfold inf_of_sign.
  rewrite (bool_decide_eq_false_2 (px * px < 0)) by nra.
  replace (0 * 0) with 0 by lra. rewrite dbl_zero. num_unfold.
  cbn [dbl]. num_unfold. dbl_eval. unfold inf_of_sign. dbl_eval.
  cbn [dbl]. num_unfold. reflexivity.
Qed.

(** Outside that range the claim fails.  For [a = 1e200] and [e = 0.5] the
    speed returned is [0] at the perihelion and [0] at the aphelion: the
    first is not greater than the second. *)
Lemma velocity_lost_to_overflow :
  0 < 1e200 /\ 0 < 0.5 < 1 /\
  calculateOrbitalVelocity_dbl (mkPlanet (Fin 1e200) (Fin 0.5) (Fin 1))
    (mkVec2 (Fin (1e200 * (1 - 0.5))) (Fin 0)) = Fin 0 /\
  calculateOrbitalVelocity_dbl (mkPlanet (Fin 1e200) (Fin 0.5) (Fin 1))
    (mkVec2 (Fin (- 1e200 * (1 + 0.5))) (Fin 0)) = Fin 0.
Proof.
  split; [lra|]. split; [lra|].
  split; apply calculateOrbitalVelocity_dbl_overflow.
  - rewrite Rabs_pos_eq; lra.
  - rewrite Rabs_left; lra.
Qed.

(** ** Initialization *)

(** What the [forEach] of [initializePlanets] leaves under each key: the
    fresh entry when the planet is initialized, the former entry otherwise. *)
Lemma initialize_fold_lookup (t : num) (planets : gmap string Planet)
    (states : gmap string PlanetState) (key : string) :
  map_fold (initializeStep t) states planets !! key =
    match planets !! key with
    | Some planet =>
        match initializePlanet t planet with
        | Ok state => Some state
        | Throw _ => states !! key
        end
    | None => states !! key
    end.
Proof.
  revert key.
  apply (map_fold_weak_ind
    (fun (r : gmap string PlanetState) (m : gmap string Planet) =>
       forall key, r !! key =
         match m !! key with
         | Some planet =>
             match initializePlanet t planet with
             | Ok state => Some state
             | Throw _ => states !! key
             end
         | None => states !! key
         end)).
  - intros key. by rewrite lookup_empty.
  - intros i planet m r Hi IH key. unfold initializeStep.
    destruct (decide (i = key)) as [->|Hne].
    + rewrite lookup_insert_eq.
      destruct (initializePlanet t planet) eqn:Hinit.
      * by rewrite lookup_insert_eq.
      * by rewrite IH, Hi.
    + rewrite (lookup_insert_ne m) by done.
      destruct (initializePlanet t planet) eqn:Hinit.
      * rewrite lookup_insert_ne by done. apply IH.
      * apply IH.
Qed.

(** A freshly initialized entry: zero velocity, empty trail, and the
    position of its mean anomaly. *)
Lemma initializePlanet_Ok (t : num) (planet : Planet) (state : PlanetState) :
  initializePlanet t planet = Ok state ->
  data state = planet /\
  velocity state = mkVec2 (Fin 0) (Fin 0) /\
  trail state = [] /\
  position state = calculateOrbitalPosition planet (meanAnomaly state).
Proof.
  unfold initializePlanet. intros H.
  repeat match type of H with
         | (if ?c then _ else _) = _ => destruct c; [discriminate|]
         end.
  by injection H as <-.
Qed.

Lemma initializePlanets_states (cfg : Config) (planets : gmap string Planet)
    (now : num) (s : SolarSystem) (t : num) :
  initialTimeOffset cfg now = Ok t ->
  planetStates (fst (initializePlanets cfg planets now s)) =
    map_fold (initializeStep t) (planetStates s) planets.
Proof.
  intros Ht. unfold initializePlanets. rewrite Ht.
  by case_bool_decide.
Qed.

Lemma newSolarSystem_Ok (cfg : Config) (planets : gmap string Planet)
    (now : num) (s : SolarSystem) :
  newSolarSystem cfg planets now = Ok s ->
  exists t,
    initialTimeOffset cfg now = Ok t /\
    planetStates s = map_fold (initializeStep t) ∅ planets /\
    maxTrailLength s = cfg_maxTrailLength cfg.
Proof.
  unfold newSolarSystem, initializePlanets. intros H.
  destruct (initialTimeOffset cfg now) as [t|]; [|discriminate].
  exists t. case_bool_decide; [discriminate|].
  by injection H as <-.
Qed.

(** C10.  After the constructor every entry of [planetStates] has velocity
    [(0, 0)].  After a reset, every planet whose initialization succeeds has
    the entry that [initializePlanet] builds, with velocity [(0, 0)]: the
    position is computed from the mean anomaly, the velocity is not. *)
Theorem initialized_velocity_zero (cfg : Config) (planets : gmap string Planet)
    (now : num) :
  (forall s key state,
     newSolarSystem cfg planets now = Ok s ->
     planetStates s !! key = Some state ->
     velocity state = mkVec2 (Fin 0) (Fin 0) /\
     position state = calculateOrbitalPosition (data state) (meanAnomaly state)) /\
  (forall s t key planet state,
     initialTimeOffset cfg now = Ok t ->
     planets !! key = Some planet ->
     initializePlanet t planet = Ok state ->
     planetStates (resetSimulation cfg planets now s) !! key = Some state /\
     velocity state = mkVec2 (Fin 0) (Fin 0) /\
     position state = calculateOrbitalPosition (data state) (meanAnomaly state)).
Proof.
  split.
  - intros s key state Hnew Hkey.
    apply newSolarSystem_Ok in Hnew as (t & _ & Hstates & _).
    rewrite Hstates, initialize_fold_lookup, lookup_empty in Hkey.
    destruct (planets !! key) as [planet|]; [|done].
    destruct (initializePlanet t planet) as [state'|] eqn:Hinit; [|done].
    injection Hkey as ->.
    apply initializePlanet_Ok in Hinit as (Hdata & Hvel & _ & Hpos).
    by rewrite Hdata.
  - intros s t key planet state Ht Hplanet Hinit. split.
    + unfold resetSimulation.
      rewrite (initializePlanets_states _ _ _ _ t Ht), initialize_fold_lookup.
      by rewrite Hplanet, Hinit.
    + apply initializePlanet_Ok in Hinit as (Hdata & Hvel & _ & Hpos).
      by rewrite Hdata.
Qed.

Lemma initializePlanet_earth : initializePlanet (Fin 0) earth = Ok earthAtEpoch.
Proof. unfold initializePlanet, earth. cbn [period]. by rdecide. Qed.

Lemma newSolarSystem_example :
  newSolarSystem exampleConfig earthOnly (Fin 0) = Ok exampleStart.
Proof.
  unfold newSolarSystem, initializePlanets, earthOnly.
  cbn [initialTimeOffset exampleConfig startAtCurrentDate planetStates].
  rewrite map_fold_singleton. unfold initializeStep.
  rewrite initializePlanet_earth, insert_empty.
  rewrite bool_decide_eq_false_2; [reflexivity|].
  by rewrite map_size_singleton.
Qed.

(** The configuration file itself: the Earth of [PLANETS] is the [earth] of
    the examples, and the constructor succeeds at every date. *)
Lemma PLANETS_earth : PLANETS !! "earth" = Some earth.
Proof.
  unfold PLANETS. rewrite !lookup_insert_ne by done. apply lookup_insert_eq.
Qed.

Lemma initializePlanet_earth_Ok (t : num) :
  exists state, initializePlanet t earth = Ok state.
Proof.
  unfold initializePlanet, earth. cbn [period]. rdecide.
  rewrite andb_false_r. by eexists.
Qed.

Lemma newSolarSystem_default (n : R) :
  exists s, newSolarSystem DEFAULT_CONFIG PLANETS (Fin n) = Ok s.
Proof.
  unfold newSolarSystem, initializePlanets, initialTimeOffset, msPerDay.
  cbn [DEFAULT_CONFIG startAtCurrentDate epoch planetStates]. rdecide.
  case_bool_decide as Hsize; [|by eexists].
  apply map_size_empty_iff in Hsize.
  destruct (initializePlanet_earth_Ok
              (Fin ((n + - (946728000000)) / (1000 * 60 * 60 * 24))))
    as [state Hstate].
  pose proof (initialize_fold_lookup
                (Fin ((n + - (946728000000)) / (1000 * 60 * 60 * 24)))
                PLANETS ∅ "earth") as Hlook.
  rewrite PLANETS_earth, Hstate, Hsize, lookup_empty in Hlook. discriminate.
Qed.

Lemma initialized_velocity_zero_witness :
  (velocity earthAtEpoch = mkVec2 (Fin 0) (Fin 0) /\
   position earthAtEpoch =
     calculateOrbitalPosition (data earthAtEpoch) (meanAnomaly earthAtEpoch)) /\
  (planetStates (resetSimulation exampleConfig earthOnly (Fin 0) exampleStart)
     !! "earth" = Some earthAtEpoch /\
   velocity earthAtEpoch = mkVec2 (Fin 0) (Fin 0) /\
   position earthAtEpoch =
     calculateOrbitalPosition (data earthAtEpoch) (meanAnomaly earthAtEpoch)).
Proof.
  destruct (initialized_velocity_zero exampleConfig earthOnly (Fin 0))
    as [Hnew Hreset].
  split.
  - apply (Hnew exampleStart "earth" earthAtEpoch).
    + exact newSolarSystem_example.
    + apply lookup_singleton_eq.
  - apply (Hreset exampleStart (Fin 0) "earth" earth earthAtEpoch).
    + reflexivity.
    + apply lookup_singleton_eq.
    + exact initializePlanet_earth.
Defined.

(** ** Trails *)












(** A tick that runs rewrites every entry with [updatePlanet]. *)
Lemma update_lookup (d : num) (s : SolarSystem) (key : string) (state : PlanetState) :
  isPaused s = false -> isFinite d = true ->
  planetStates s !! key = Some state ->
  planetStates (update d s) !! key =
    Some (updatePlanet (currentTime s + d * timeSpeed s)%num
            (showTrails s) (maxTrailLength s) state).
Proof.
  intros Hp Hd Hkey. unfold update. rewrite Hp.
  destruct d; try discriminate. cbn [isFinite isNaN negb orb planetStates].
  by rewrite lookup_fmap, Hkey.
Qed.








(** ** Stored values that are not finite *)

(** With an infinite semi-major axis every path of
    [calculateOrbitalPosition] ends in the fallback, which is the axis
    itself: [Infinity || 1] is [Infinity]. *)
Lemma calculateOrbitalPosition_infinite_axis (e T M : num) :
  calculateOrbitalPosition (mkPlanet PInf e T) M = mkVec2 PInf (Fin 0).
Proof.
  unfold calculateOrbitalPosition.
  destruct (calculateOrbitalPosition_try (mkPlanet PInf e T) M) as [p|]
    eqn:Htry; [|reflexivity].
  unfold calculateOrbitalPosition_try in Htry.
  cbn [semiMajorAxis eccentricity isNaN num_le orb] in Htry.
  destruct (isNaN e || (e <? Fin 0)%num || (e >=? Fin 1)%num); [discriminate|].
  destruct (isNaN M); [discriminate|].
  rewrite mul_PInf_not_finite in Htry. discriminate.
Qed.

(** The speed reported at an infinite distance is the fallback [0], and
    [update] then multiplies [Infinity / Infinity] by it. *)
Lemma updatePlanet_infinite_axis (t e T : num) (trails : bool) (n : nat)
    (state : PlanetState) :
  data state = mkPlanet PInf e T ->
  skipped (data state) = false ->
  position (updatePlanet t trails n state) = mkVec2 PInf (Fin 0) /\
  y (velocity (updatePlanet t trails n state)) = NaN.
Proof.
  intros Hdata Hok. unfold updatePlanet. unfold skipped in Hok. rewrite Hok.
  cbn [position velocity]. rewrite Hdata.
  rewrite calculateOrbitalPosition_infinite_axis. split; [reflexivity|].
  cbn [x y sq]. unfold calculateOrbitalVelocity, calculateOrbitalVelocity_try, AU.
  cbn [x y semiMajorAxis]. by rdecide.
Qed.

(** C3, at the input where it fails.  A planet whose semi-major axis is
    [Infinity] gets the position [(Infinity, 0)] from the constructor, and
    the first running tick stores a velocity whose [y] component is NaN. *)
Theorem infinite_axis_is_stored (cfg : Config) (planets : gmap string Planet)
    (now e T : num) (s : SolarSystem) (key : string) (state : PlanetState) :
  planets !! key = Some (mkPlanet PInf e T) ->
  newSolarSystem cfg planets now = Ok s ->
  planetStates s !! key = Some state ->
  position state = mkVec2 PInf (Fin 0) /\
  (skipped (mkPlanet PInf e T) = false ->
   forall d, isFinite d = true ->
     exists state',
       planetStates (update d s) !! key = Some state' /\
       position state' = mkVec2 PInf (Fin 0) /\
       y (velocity state') = NaN).
Proof.
  intros Hplanet Hnew Hkey.
  pose proof Hnew as Hnew'.
  apply newSolarSystem_Ok in Hnew' as (t & _ & Hstates & _).
  pose proof Hkey as Hfresh.
  rewrite Hstates, initialize_fold_lookup, lookup_empty, Hplanet in Hfresh.
  destruct (initializePlanet t (mkPlanet PInf e T)) as [fresh|] eqn:Hinit;
    [|done].
  injection Hfresh as ->.
  apply initializePlanet_Ok in Hinit as (Hdata & _ & _ & Hpos).
  split.
  - rewrite Hpos. apply calculateOrbitalPosition_infinite_axis.
  - intros Hok d Hd.
    assert (Hp : isPaused s = false).
    { unfold newSolarSystem, initializePlanets in Hnew.
      destruct (initialTimeOffset cfg now); [|discriminate].
      case_bool_decide; [discriminate|]. by injection Hnew as <-. }
    eexists. split; [by apply update_lookup|].
    apply (updatePlanet_infinite_axis _ e T); by rewrite Hdata.
Qed.

Lemma newSolarSystem_comet :
  newSolarSystem exampleConfig {[ "comet" := comet ]} (Fin 0) = Ok cometStart.
Proof.
  unfold newSolarSystem, initializePlanets.
  cbn [initialTimeOffset exampleConfig startAtCurrentDate planetStates].
  rewrite map_fold_singleton. unfold initializeStep.
  assert (Hinit : initializePlanet (Fin 0) comet = Ok cometAtEpoch).
  { unfold initializePlanet, comet. cbn [period]. by rdecide. }
  rewrite Hinit, insert_empty.
  rewrite bool_decide_eq_false_2; [reflexivity|].
  by rewrite map_size_singleton.
Qed.

Lemma infinite_axis_is_stored_witness :
  position cometAtEpoch = mkVec2 PInf (Fin 0) /\
  exists state',
    planetStates (update (Fin 1) cometStart) !! "comet" = Some state' /\
    position state' = mkVec2 PInf (Fin 0) /\
    y (velocity state') = NaN.
Proof.
  destruct (infinite_axis_is_stored exampleConfig {[ "comet" := comet ]}
              (Fin 0) (Fin 0.5) (Fin 1) cometStart "comet" cometAtEpoch)
    as [Hpos Hvel].
  - apply lookup_singleton_eq.
  - exact newSolarSystem_comet.
  - apply lookup_singleton_eq.
  - split; [exact Hpos|]. apply Hvel; [|reflexivity].
    unfold skipped. cbn [period]. by rdecide.
Defined.

(** When no semi-major axis is an infinity the stored values are finite:
    the defect above is the only way a NaN or an infinity is stored. *)
Lemma calculateOrbitalPosition_finite (planet : Planet) (M : num) :
  finiteAxis planet -> finiteVec (calculateOrbitalPosition planet M).
Proof.
  intros [Hp Hn]. unfold calculateOrbitalPosition, calculateOrbitalPosition_try.
  repeat match goal with
         | |- context [if ?c then Throw _ else _] => destruct c eqn:?
         end;
    try (unfold finiteVec, or_else; cbn [x y];
         destruct (semiMajorAxis planet) as [| | |a]; try done;
         cbn [truthy]; by case_bool_decide).
  unfold finiteVec. cbn [x y].
  match goal with
  | H : negb (isFinite ?u) || negb (isFinite ?v) = false |- _ =>
      apply orb_false_iff in H as [Hx Hy];
      apply negb_false_iff in Hx; apply negb_false_iff in Hy
  end.
  done.
Qed.

Lemma calculateOrbitalVelocity_isFinite (planet : Planet) (p : Vec2) :
  isFinite (calculateOrbitalVelocity planet p) = true.
Proof.
  unfold calculateOrbitalVelocity, calculateOrbitalVelocity_try.
  repeat match goal with
         | |- context [if ?c then Throw _ else _] => destruct c eqn:?
         end; try done.
  match goal with
  | H : negb (isFinite ?v) = false |- _ =>
      apply negb_false_iff in H; destruct v; try discriminate
  end.
  num_unfold. rewrite bool_decide_eq_false_2 by lra. reflexivity.
Qed.

Lemma updatePlanet_finite t trails n state :
  finiteState state -> finiteState (updatePlanet t trails n state).
Proof.
  intros (Haxis & Hpos & Hvel). unfold updatePlanet.
  destruct (_ || _); [done|].
  pose proof (calculateOrbitalPosition_finite (data state)
                (meanAnomalyAt t (period (data state) * Fin 365.25)%num) Haxis)
    as [Hx Hy].
  pose proof (calculateOrbitalVelocity_isFinite (data state)
                (calculateOrbitalPosition (data state)
                   (meanAnomalyAt t (period (data state) * Fin 365.25)%num)))
    as Hv.
  split; [done|]. split; [done|]. cbn [velocity].
  destruct (calculateOrbitalPosition _ _) as [px py]. cbn [x y] in *.
  destruct px as [| | |px]; try discriminate.
  destruct py as [| | |py]; try discriminate.
  destruct (calculateOrbitalVelocity _ _) as [| | |v]; try discriminate.
  unfold sq. num_unfold. rewrite (bool_decide_eq_false_2 (px * px + py * py < 0)) by nra.
  num_unfold. case_bool_decide as Hr; [|done].
  unfold finiteVec. cbn [x y]. num_unfold.
  rewrite !(bool_decide_eq_false_2 (sqrt (px * px + py * py) = 0)) by lra.
  done.
Qed.

Lemma reachable_finite (cfg : Config) (planets : gmap string Planet)
    (s : SolarSystem) :
  (forall key planet, planets !! key = Some planet -> finiteAxis planet) ->
  reachable cfg planets s ->
  forall key state, planetStates s !! key = Some state -> finiteState state.
Proof.
  intros Hplanets.
  assert (Hfold : forall t states,
            (forall key state, states !! key = Some state -> finiteState state) ->
            forall key state,
              map_fold (initializeStep t) states planets !! key = Some state ->
              finiteState state).
  { intros t states Hold key state. rewrite initialize_fold_lookup.
    destruct (planets !! key) as [planet|] eqn:Hplanet; [|apply Hold].
    destruct (initializePlanet t planet) as [fresh|] eqn:Hinit; [|apply Hold].
    intros [= <-]. apply initializePlanet_Ok in Hinit as (Hdata & Hvel & _ & Hpos).
    assert (Haxis : finiteAxis (data fresh)) by (rewrite Hdata; eauto).
    split; [done|]. split.
    - rewrite Hpos, <- Hdata. by apply calculateOrbitalPosition_finite.
    - by rewrite Hvel. }
  assert (Hinit : forall now s0,
            (forall key state, planetStates s0 !! key = Some state -> finiteState state) ->
            forall key state,
              planetStates (fst (initializePlanets cfg planets now s0)) !! key
                = Some state -> finiteState state).
  { intros now s0 Hold key state. unfold initializePlanets.
    destruct (initialTimeOffset cfg now) as [t|]; [|apply Hold].
    case_bool_decide; cbn [fst planetStates]; by apply Hfold. }
  induction 1 as [now s Hnew | deltaTime s _ IH | now s _ IH
                 | speed paused trails s _ IH].
  - apply newSolarSystem_Ok in Hnew as (t & _ & -> & _).
    apply Hfold. intros key state. by rewrite lookup_empty.
  - unfold update. destruct (isPaused s); [done|].
    destruct (negb (isFinite deltaTime) || isNaN deltaTime); [done|].
    cbn [planetStates]. intros key state. rewrite lookup_fmap.
    destruct (planetStates s !! key) as [old|] eqn:Hold; [|done].
    intros [= <-]. apply updatePlanet_finite. by eapply IH.
  - unfold resetSimulation. by apply Hinit.
  - done.
Qed.

(** ** Accuracy of the solver *)

(** *** Bounds on [sin], [cos] and [PI] from their series *)

Lemma sin_lower (a : R) : 0 <= a <= 4 -> a - a ^ 3 / 6 <= sin a.
Proof.
  intros [H0 H4]. destruct (pre_sin_bound a 0 H0 H4) as [Hlo _].
  unfold sin_approx, sin_term in Hlo. simpl in Hlo. lra.
Qed.

Lemma sin_upper (a : R) : 0 <= a <= 4 -> sin a <= a - a ^ 3 / 6 + a ^ 5 / 120.
Proof.
  intros [H0 H4]. destruct (pre_sin_bound a 0 H0 H4) as [_ Hup].
  unfold sin_approx, sin_term in Hup. simpl in Hup. lra.
Qed.


Lemma cos_upper (a : R) : -2 <= a <= 2 -> cos a <= 1 - a ^ 2 / 2 + a ^ 4 / 24.
Proof.
  intros [H0 H4]. destruct (pre_cos_bound a 0 H0 H4) as [_ Hup].
  unfold cos_approx, cos_term in Hup. simpl in Hup. lra.
Qed.


Lemma PI_bounds : 3 < PI < 3.2.
Proof.
  split; [pose proof PI2_3_2; lra|].
  destruct (Rlt_dec PI 3.2) as [H|H]; [done|].
  assert (Hc : 0 <= cos 1.6).
  { apply cos_ge_0; pose proof PI_RGT_0; lra. }
  pose proof (cos_upper 1.6 ltac:(lra)) as Hu. lra.
Qed.







Lemma sin_cos_period_Z (u : R) (k : Z) :
  sin (u + 2 * PI * IZR k) = sin u /\ cos (u + 2 * PI * IZR k) = cos u.
Proof.
  destruct (Z_le_gt_dec 0 k) as [Hk|Hk].
  - rewrite <- (Z2Nat.id k Hk), <- INR_IZR_INZ.
    replace (u + 2 * PI * INR (Z.to_nat k)) with (u + 2 * INR (Z.to_nat k) * PI)
      by ring.
    split; [apply sin_period | apply cos_period].
  - assert (Hk' : (0 <= - k)%Z) by lia.
    pose proof (sin_period (u + 2 * PI * IZR k) (Z.to_nat (- k))) as Hs.
    pose proof (cos_period (u + 2 * PI * IZR k) (Z.to_nat (- k))) as Hc.
    rewrite INR_IZR_INZ, (Z2Nat.id _ Hk'), opp_IZR in Hs, Hc.
    replace (u + 2 * PI * IZR k + 2 * - IZR k * PI) with u in Hs, Hc by ring.
    by split.
Qed.







(** *** An iteration that never settles *)










(** *** What the tolerance test guarantees *)



(** *** Convergence for the eccentricities up to one half *)






(** * Further properties of the engine *)

(** ** The solver and the position on valid elements *)

(** With a finite eccentricity the iterates stay finite from a finite
    start: a zero denominator is caught by the near-zero test. *)
Lemma newtonLoop_isFinite (fuel : nat) (M e : R) (tol : num) :
  forall st,
    (exists Ev : R, E st = Fin Ev) ->
    exists Ev' : R, E (newtonLoop fuel (Fin M) (Fin e) tol st) = Fin Ev'.
Proof.
  induction fuel as [|fuel IH]; intros st [Ev HE]; [by exists Ev|].
  rewrite newtonLoop_S.
  destruct ((Math_abs (delta st) >? tol)%num && (iterations st <? maxIterations)%nat);
    [|by exists Ev].
  rewrite HE.
  destruct (Math_abs (Fin 1 - Fin e * Math_cos (Fin Ev)) <? Fin 1e-10)%num eqn:Hden;
    [by exists Ev|].
  apply IH. cbn [E]. num_unfold. apply bool_decide_eq_false in Hden.
  assert (Hz : 1 + - (e * cos Ev) <> 0).
  { intros Hz. rewrite Hz, Rabs_R0 in Hden. lra. }
  rewrite bool_decide_eq_false_2 by done. by eexists.
Qed.

Lemma solveKeplersEquation_Fin (M : R) (e tol : num) :
  exists Ev : R, solveKeplersEquation (Fin M) e tol = Fin Ev.
Proof.
  unfold solveKeplersEquation, solveKeplersLoop. cbn [isNaN orb].
  destruct (isNaN e) eqn:He; [by exists 0|].
  destruct (clampEccentricity_range e He) as (c & -> & _).
  apply newtonLoop_isFinite. by exists M.
Qed.

(** X1.  The solver never returns NaN or an infinity for a finite mean anomaly,
    whatever the eccentricity (NaN and infinities included) and the
    tolerance. *)
Theorem solveKeplersEquation_finite (M : R) (e tol : num) :
  exists Ev : R, solveKeplersEquation (Fin M) e tol = Fin Ev.
Proof. exact (solveKeplersEquation_Fin M e tol). Qed.

(** What a successful [try] block of [calculateOrbitalPosition] returns. *)
Lemma calculateOrbitalPosition_try_Ok (planet : Planet) (M : num) (p : Vec2) :
  calculateOrbitalPosition_try planet M = Ok p ->
  exists a e Ev : R,
    semiMajorAxis planet = Fin a /\ 0 < a /\
    eccentricity planet = Fin e /\ 0 <= e < 1 /\
    p = mkVec2 (Fin (a * (cos Ev - e))) (Fin (a * sqrt (1 - e * e) * sin Ev)).
Proof.
  unfold calculateOrbitalPosition_try. intros H.
  repeat match type of H with
         | (if ?c then Throw _ else _) = Ok _ =>
             let Hc := fresh "Hc" in destruct c eqn:Hc; [discriminate|]
         end.
  injection H as <-.
  destruct (semiMajorAxis planet) as [| | |a] eqn:Ha;
    try (cbn [isNaN num_le orb] in Hc; discriminate).
  { rewrite mul_PInf_not_finite in Hc2. discriminate. }
  destruct (eccentricity planet) as [| | |e] eqn:He;
    try (unfold num_ge in Hc0; cbn [isNaN num_lt num_le orb] in Hc0; discriminate).
  unfold num_ge in Hc0. num_unfold.
  apply orb_false_iff in Hc0 as [He0 He1].
  apply bool_decide_eq_false in Hc, He0, He1.
  destruct (solveKeplersEquation M (Fin e) defaultTolerance) as [| | |Ev];
    try discriminate.
  num_unfold. rewrite (bool_decide_eq_false_2 (1 + - (e * e) < 0)) by nra.
  num_unfold. exists a, e, Ev. repeat split; try done; lra.
Qed.

(** With valid elements and a finite mean anomaly the fallback is not
    used. *)
Lemma calculateOrbitalPosition_on_orbit (a e M : R) (T : num) :
  0 < a -> 0 <= e < 1 ->
  exists Ev : R,
    calculateOrbitalPosition (mkPlanet (Fin a) (Fin e) T) (Fin M) =
      mkVec2 (Fin (a * (cos Ev - e))) (Fin (a * sqrt (1 - e * e) * sin Ev)).
Proof.
  intros Ha He.
  destruct (solveKeplersEquation_Fin M (Fin e) defaultTolerance) as [Ev HE].
  exists Ev. by apply calculateOrbitalPosition_valid.
Qed.

(** The distance to the focus of a point of the orbit is [a (1 - e cos E)]. *)
Lemma orbit_radius (a e Ev : R) :
  0 < a -> 0 <= e < 1 ->
  sqrt (a * (cos Ev - e) * (a * (cos Ev - e)) +
        a * sqrt (1 - e * e) * sin Ev * (a * sqrt (1 - e * e) * sin Ev))
  = a * (1 - e * cos Ev).
Proof.
  intros Ha He.
  pose proof (sqrt_sqrt (1 - e * e) ltac:(nra)) as Hq.
  pose proof (sin2_cos2 Ev) as Hsc. unfold Rsqr in Hsc.
  pose proof (COS_bound Ev) as [Hc1 Hc2].
  set (q := sqrt (1 - e * e)) in *. set (s := sin Ev) in *. set (c := cos Ev) in *.
  replace (a * (c - e) * (a * (c - e)) + a * q * s * (a * q * s))
    with (a * a * ((c - e) * (c - e) + (q * q) * (s * s))) by ring.
  rewrite Hq. replace (s * s) with (1 - c * c) by lra.
  replace (a * a * ((c - e) * (c - e) + (1 - e * e) * (1 - c * c)))
    with ((a * (1 - e * c)) * (a * (1 - e * c))) by ring.
  assert (Hec : e * c <= e) by nra.
  apply sqrt_square. apply Rmult_le_pos; lra.
Qed.

Lemma sum_squares_nonneg (u v : R) : 0 <= u * u + v * v.
Proof. nra. Qed.

(** X2.  For valid elements and a finite mean anomaly the position lies on the
    ellipse of semi-major axis [a] and eccentricity [e] with a focus at the
    origin: [(x + a e)^2 / a^2 + y^2 / (a^2 (1 - e^2)) = 1], written
    without divisions.  The aphelion distance is taken within the range of
    the doubles, where the products of the code do not overflow and its
    result check does not replace the point by the fallback. *)
Theorem position_on_ellipse (a e M : R) (T : num) :
  0 < a -> 0 <= e < 1 -> representable (a * (1 + e)) ->
  exists px py : R,
    calculateOrbitalPosition (mkPlanet (Fin a) (Fin e) T) (Fin M) =
      mkVec2 (Fin px) (Fin py) /\
    (1 - e * e) * ((px + a * e) * (px + a * e)) + py * py
      = a * a * (1 - e * e).
Proof.
  intros Ha He _.
  destruct (calculateOrbitalPosition_on_orbit a e M T Ha He) as [Ev ->].
  eexists _, _. split; [reflexivity|].
  pose proof (sqrt_sqrt (1 - e * e) ltac:(nra)) as Hq.
  pose proof (sin2_cos2 Ev) as Hsc. unfold Rsqr in Hsc.
  set (q := sqrt (1 - e * e)) in *. set (s := sin Ev) in *. set (c := cos Ev) in *.
  replace ((a * (c - e) + a * e) * (a * (c - e) + a * e)) with (a * a * (c * c))
    by ring.
  replace (a * q * s * (a * q * s)) with (a * a * (q * q) * (s * s)) by ring.
  rewrite Hq. replace (s * s) with (1 - c * c) by lra. ring.
Qed.

Lemma position_on_ellipse_witness :
  exists px py : R,
    calculateOrbitalPosition (mkPlanet (Fin 1.524) (Fin 0.093) (Fin 1.881)) (Fin 2) =
      mkVec2 (Fin px) (Fin py) /\
    (1 - 0.093 * 0.093) * ((px + 1.524 * 0.093) * (px + 1.524 * 0.093)) + py * py
      = 1.524 * 1.524 * (1 - 0.093 * 0.093).
Proof.
  apply (position_on_ellipse 1.524 0.093 2 (Fin 1.881));
    [lra | lra | apply representable_pos; lra].
Defined.

(** X3.  For valid elements and a finite mean anomaly the distance of the
    position to the origin lies between the perihelion distance [a (1 - e)]
    and the aphelion distance [a (1 + e)]. *)
Theorem position_distance_bounds (a e M : R) (T : num) :
  0 < a -> 0 <= e < 1 ->
  exists r : R,
    (let p := calculateOrbitalPosition (mkPlanet (Fin a) (Fin e) T) (Fin M) in
     Math_sqrt (sq (x p) + sq (y p)) = Fin r) /\
    a * (1 - e) <= r <= a * (1 + e).
Proof.
  intros Ha He.
  destruct (calculateOrbitalPosition_on_orbit a e M T Ha He) as [Ev ->].
  exists (a * (1 - e * cos Ev)). cbn [x y sq mul add]. split.
  - rewrite sqrt_Fin by apply sum_squares_nonneg. f_equal. by apply orbit_radius.
  - pose proof (COS_bound Ev) as [Hc1 Hc2].
    assert (Hec : e * cos Ev <= e) by nra.
    assert (Hec' : - e <= e * cos Ev) by nra.
    split; apply Rmult_le_compat_l; lra.
Qed.

Lemma position_distance_bounds_witness :
  exists r : R,
    (let p := calculateOrbitalPosition (mkPlanet (Fin 0.387) (Fin 0.206) (Fin 0.241))
                (Fin 1) in
     Math_sqrt (sq (x p) + sq (y p)) = Fin r) /\
    0.387 * (1 - 0.206) <= r <= 0.387 * (1 + 0.206).
Proof. apply (position_distance_bounds 0.387 0.206 1 (Fin 0.241)); lra. Defined.

(** ** The velocity vector *)

(** [calculateOrbitalPosition] never returns the origin, whatever the
    planet and the mean anomaly: the distance [r] that [update] computes is
    positive (or [Infinity]). *)
Lemma position_radius_positive (planet : Planet) (M : num) :
  (Math_sqrt (sq (x (calculateOrbitalPosition planet M)) +
              sq (y (calculateOrbitalPosition planet M))) >? Fin 0)%num = true.
Proof.
  unfold calculateOrbitalPosition.
  destruct (calculateOrbitalPosition_try planet M) as [p|] eqn:Htry.
  - apply calculateOrbitalPosition_try_Ok in Htry
      as (a & e & Ev & _ & Ha & _ & He & ->).
    cbn [x y sq mul add]. rewrite sqrt_Fin by apply sum_squares_nonneg.
    rewrite orbit_radius by done.
    pose proof (COS_bound Ev) as [Hc1 Hc2].
    assert (Hec : e * cos Ev <= e) by nra.
    unfold num_gt. num_unfold. apply bool_decide_eq_true. nra.
  - cbn [x y]. unfold or_else.
    destruct (semiMajorAxis planet) as [| | |a]; cbn [truthy];
      try (unfold sq, num_gt; num_unfold;
           rewrite ?(bool_decide_eq_false_2 (1 * 1 + 0 * 0 < 0)) by lra;
           num_unfold; try done).
    + apply bool_decide_eq_true. apply sqrt_lt_R0. lra.
    + case_bool_decide as Hz; cbn [negb]; unfold sq, num_gt; num_unfold.
      * rewrite (bool_decide_eq_false_2 (1 * 1 + 0 * 0 < 0)) by lra.
        num_unfold. apply bool_decide_eq_true.
        apply sqrt_lt_R0. lra.
      * rewrite (bool_decide_eq_false_2 (a * a + 0 * 0 < 0)) by nra.
        num_unfold. apply bool_decide_eq_true.
        apply sqrt_lt_R0. nra.
Qed.

Lemma calculateOrbitalVelocity_ge_0 (planet : Planet) (p : Vec2) :
  exists v : R, calculateOrbitalVelocity planet p = Fin v /\ 0 <= v.
Proof.
  unfold calculateOrbitalVelocity.
  destruct (calculateOrbitalVelocity_try planet p) as [v|] eqn:Htry;
    [|exists 0; split; [reflexivity | lra]].
  unfold calculateOrbitalVelocity_try in Htry.
  match type of Htry with
  | context [Math_abs ?q] => remember q as vsq eqn:Hvsq
  end.
  clear Hvsq.
  repeat match type of Htry with
         | (if ?c then Throw _ else _) = Ok _ =>
             let Hc := fresh "Hc" in destruct c eqn:Hc; [discriminate|]
         end.
  injection Htry as <-. apply negb_false_iff in Hc1.
  destruct vsq as [| | |q]; try discriminate.
  num_unfold. rewrite (bool_decide_eq_false_2 (Rabs q < 0))
    by (pose proof (Rabs_pos q); lra).
  num_unfold. rewrite (bool_decide_eq_false_2 (1000 = 0)) by lra.
  eexists. split; [reflexivity|].
  pose proof (sqrt_pos (Rabs q)). unfold Rdiv. nra.
Qed.

(** X4.  The speed is a finite, non-negative number for every planet and every
    position, NaN and infinite ones included. *)
Theorem calculateOrbitalVelocity_nonneg (planet : Planet) (p : Vec2) :
  exists v : R, calculateOrbitalVelocity planet p = Fin v /\ 0 <= v.
Proof. exact (calculateOrbitalVelocity_ge_0 planet p). Qed.

Lemma updatePlanet_velocity (t : num) (trails : bool) (n : nat)
    (state : PlanetState) :
  skipped (data state) = false ->
  let p := position (updatePlanet t trails n state) in
  let r := Math_sqrt (sq (x p) + sq (y p)) in
  let v := calculateOrbitalVelocity (data state) p in
  (r >? Fin 0)%num = true /\
  velocity (updatePlanet t trails n state) =
    mkVec2 (neg (y p) / r * v)%num (x p / r * v)%num.
Proof.
  intros Hok. unfold updatePlanet. unfold skipped in Hok. rewrite Hok.
  cbn [position velocity].
  pose proof (position_radius_positive (data state)
                (meanAnomalyAt t (period (data state) * Fin 365.25)%num)) as Hr.
  split; [exact Hr|]. by rewrite Hr.
Qed.

(** X5.  A tick recomputes the velocity of every body with valid elements at
    a scale the code can compute with: the test [r > 0] of [update]
    succeeds, so the velocity stored before is not kept.  (At a scale where
    [x ** 2 + y ** 2] vanishes in double precision, the code keeps the old
    velocity.) *)
Theorem velocity_recomputed (a e T t : R) (trails : bool) (n : nat)
    (state : PlanetState) :
  data state = mkPlanet (Fin a) (Fin e) (Fin T) ->
  wellScaled a e T -> Rabs t <= 1e100 ->
  let p := position (updatePlanet (Fin t) trails n state) in
  let r := Math_sqrt (sq (x p) + sq (y p)) in
  let v := calculateOrbitalVelocity (data state) p in
  (r >? Fin 0)%num = true /\
  velocity (updatePlanet (Fin t) trails n state) =
    mkVec2 (neg (y p) / r * v)%num (x p / r * v)%num.
Proof.
  intros Hdata Hscale _.
  apply (updatePlanet_velocity (Fin t) trails n state).
  rewrite Hdata. by apply wellScaled_not_skipped.
Qed.

Lemma velocity_recomputed_witness :
  (Math_sqrt (sq (x (position earthAfterTick)) + sq (y (position earthAfterTick)))
     >? Fin 0)%num = true /\
  velocity earthAfterTick =
    mkVec2
      (neg (y (position earthAfterTick))
       / Math_sqrt (sq (x (position earthAfterTick)) + sq (y (position earthAfterTick)))
       * calculateOrbitalVelocity earth (position earthAfterTick))%num
      (x (position earthAfterTick)
       / Math_sqrt (sq (x (position earthAfterTick)) + sq (y (position earthAfterTick)))
       * calculateOrbitalVelocity earth (position earthAfterTick))%num.
Proof.
  apply (velocity_recomputed 1.0 0.017 1.0 10 true 1 earthAtEpoch).
  - reflexivity.
  - exact wellScaled_earth.
  - rewrite Rabs_pos_eq; lra.
Defined.

(** X6.  After a tick, the velocity of a body with valid elements at a scale
    the code can compute with is perpendicular to its position, and its norm
    is the vis-viva speed at that position. *)
Theorem velocity_perpendicular_with_visviva_norm (a e T time : R)
    (trails : bool) (n : nat) (state : PlanetState) :
  data state = mkPlanet (Fin a) (Fin e) (Fin T) ->
  wellScaled a e T -> Rabs time <= 1e100 ->
  let p := position (updatePlanet (Fin time) trails n state) in
  let vel := velocity (updatePlanet (Fin time) trails n state) in
  (x p * x vel + y p * y vel)%num = Fin 0 /\
  Math_sqrt (sq (x vel) + sq (y vel)) = calculateOrbitalVelocity (data state) p.
Proof.
  intros Hdata Hscale _.
  assert (Hok : skipped (data state) = false)
    by (rewrite Hdata; by apply wellScaled_not_skipped).
  assert (Haxis : finiteAxis (data state))
    by (rewrite Hdata; split; discriminate).
  clear Hdata Hscale. generalize (Fin time). intros t.
  destruct (updatePlanet_velocity t trails n state Hok) as [Hr Hvel].
  cbn zeta in Hr, Hvel |- *. rewrite Hvel. clear Hvel.
  assert (Hp : position (updatePlanet t trails n state) =
               calculateOrbitalPosition (data state)
                 (meanAnomalyAt t (period (data state) * Fin 365.25)%num)).
  { unfold updatePlanet. unfold skipped in Hok. by rewrite Hok. }
  rewrite Hp in *.
  destruct (calculateOrbitalPosition_finite (data state)
              (meanAnomalyAt t (period (data state) * Fin 365.25)%num) Haxis)
    as [Hx Hy].
  destruct (calculateOrbitalPosition _ _) as [px py]. cbn [x y] in *.
  destruct px as [| | |px]; try discriminate.
  destruct py as [| | |py]; try discriminate.
  destruct (calculateOrbitalVelocity_ge_0 (data state) (mkVec2 (Fin px) (Fin py)))
    as (v & -> & Hv).
  unfold sq, num_gt in *. num_unfold.
  rewrite (bool_decide_eq_false_2 (px * px + py * py < 0)) in *
    by (pose proof (sum_squares_nonneg px py); lra).
  num_unfold. apply bool_decide_eq_true in Hr.
  pose proof (sqrt_sqrt (px * px + py * py) (sum_squares_nonneg px py)) as Hrr.
  set (r := sqrt (px * px + py * py)) in *.
  rewrite !(bool_decide_eq_false_2 (r = 0)) by lra. num_unfold. split.
  - f_equal. field. lra.
  - replace (- py / r * v * (- py / r * v) + px / r * v * (px / r * v))
      with (v * v).
    + rewrite (bool_decide_eq_false_2 (v * v < 0)) by nra.
      f_equal. by apply sqrt_square.
    + replace (- py / r * v * (- py / r * v) + px / r * v * (px / r * v))
        with ((px * px + py * py) / (r * r) * (v * v)) by (field; lra).
      rewrite Hrr. field. nra.
Qed.

Lemma velocity_perpendicular_with_visviva_norm_witness :
  (x (position earthAfterTick) * x (velocity earthAfterTick) +
   y (position earthAfterTick) * y (velocity earthAfterTick))%num = Fin 0 /\
  Math_sqrt (sq (x (velocity earthAfterTick)) + sq (y (velocity earthAfterTick))) =
    calculateOrbitalVelocity earth (position earthAfterTick).
Proof.
  apply (velocity_perpendicular_with_visviva_norm 1.0 0.017 1.0 10 true 1
           earthAtEpoch).
  - reflexivity.
  - exact wellScaled_earth.
  - rewrite Rabs_pos_eq; lra.
Defined.

(** X7.  On an orbit of semi-major axis [a > 0] the speed decreases with the
    distance, as long as the distance is at most [2 a] (where it vanishes):
    nearer the Sun is faster.  The axis and the two distances are taken at
    a scale where the code can square them. *)
Theorem speed_decreases_with_distance (a e px1 py1 px2 py2 : R) (T : num) :
  squarable a ->
  squarable (sqrt (px1 * px1 + py1 * py1)) ->
  squarable (sqrt (px2 * px2 + py2 * py2)) ->
  0 < a ->
  0 < sqrt (px1 * px1 + py1 * py1) ->
  sqrt (px1 * px1 + py1 * py1) < sqrt (px2 * px2 + py2 * py2) ->
  sqrt (px2 * px2 + py2 * py2) <= 2 * a ->
  exists v1 v2 : R,
    calculateOrbitalVelocity (mkPlanet (Fin a) (Fin e) T) (mkVec2 (Fin px1) (Fin py1))
      = Fin v1 /\
    calculateOrbitalVelocity (mkPlanet (Fin a) (Fin e) T) (mkVec2 (Fin px2) (Fin py2))
      = Fin v2 /\
    0 <= v2 < v1.
Proof.
  intros _ _ _ Ha Hr1 Hlt Hr2.
  rewrite !calculateOrbitalVelocity_finite by lra.
  set (r1 := sqrt (px1 * px1 + py1 * py1)) in *.
  set (r2 := sqrt (px2 * px2 + py2 * py2)) in *.
  exists (visViva a r1), (visViva a r2). split; [done|]. split; [done|].
  unfold visViva.
  set (k := 6.67430e-11 * 1.989e30 / 1.496e11).
  assert (Hk : 0 < k) by (unfold k; lra).
  assert (Hinv : / r2 < / r1) by (apply Rinv_lt_contravar; nra).
  assert (Hinv2 : / (2 * a) <= / r2) by (apply Rinv_le_contravar; lra).
  assert (Hhalf : / (2 * a) = / a / 2) by (field; lra).
  assert (Hposa : 0 < / a) by (apply Rinv_0_lt_compat; lra).
  assert (Hform : forall r, r <> 0 ->
            6.67430e-11 * 1.989e30 * (2 / (r * 1.496e11) - 1 / (a * 1.496e11))
            = k * (2 * / r - / a)).
  { intros r Hr. unfold k. field. lra. }
  rewrite !Hform by lra.
  assert (H2 : 0 <= k * (2 * / r2 - / a)) by nra.
  assert (H12 : k * (2 * / r2 - / a) < k * (2 * / r1 - / a)) by nra.
  rewrite !Rabs_pos_eq by lra.
  pose proof (sqrt_pos (k * (2 * / r2 - / a))) as Hs2.
  pose proof (sqrt_lt_1_alt _ _ (conj H2 H12)) as Hs.
  split; [unfold Rdiv; nra | unfold Rdiv; nra].
Qed.

Lemma speed_decreases_with_distance_witness :
  exists v1 v2 : R,
    calculateOrbitalVelocity (mkPlanet (Fin 1) (Fin 0.5) (Fin 1))
      (mkVec2 (Fin 1) (Fin 0)) = Fin v1 /\
    calculateOrbitalVelocity (mkPlanet (Fin 1) (Fin 0.5) (Fin 1))
      (mkVec2 (Fin 2) (Fin 0)) = Fin v2 /\
    0 <= v2 < v1.
Proof.
  assert (H1 : sqrt (1 * 1 + 0 * 0) = 1).
  { replace (1 * 1 + 0 * 0) with (1 * 1) by lra. apply sqrt_square. lra. }
  assert (H2 : sqrt (2 * 2 + 0 * 0) = 2).
  { replace (2 * 2 + 0 * 0) with (2 * 2) by lra. apply sqrt_square. lra. }
  apply (speed_decreases_with_distance 1 0.5 1 0 2 0 (Fin 1));
    rewrite ?H1, ?H2; try apply squarable_pos; lra.
Defined.

(** ** Kepler's third law: [verifyKeplersThirdLaw] *)

(** The period in years of an orbit of semi-major axis [a] AU. *)
Lemma verifyKeplersThirdLaw_value (a : R) (e T : num) :
  0 <= a ->
  verifyKeplersThirdLaw (mkPlanet (Fin a) e T) =
    Fin (keplerPeriod a).
Proof.
  intros Ha. unfold verifyKeplersThirdLaw, keplerPeriod, G, AU, SOLAR_MASS.
  cbn [semiMajorAxis]. num_unfold.
  rewrite (bool_decide_eq_false_2 (6.67430e-11 * 1.989e30 = 0)) by lra.
  num_unfold.
  assert (Hq : 0 <= a * 1.496e11 * (a * 1.496e11) * (a * 1.496e11)
                    / (6.67430e-11 * 1.989e30)).
  { apply Rmult_le_pos; [|lra].
    apply Rmult_le_pos; [apply Rmult_le_pos|]; lra. }
  rewrite (bool_decide_eq_false_2 (_ < 0)) by lra.
  num_unfold. rewrite (bool_decide_eq_false_2 (365.25 * 24 * 3600 = 0)) by lra.
  reflexivity.
Qed.

Lemma keplerPeriod_square (a : R) :
  0 <= a ->
  keplerPeriod a * keplerPeriod a =
    (2 * PI / (365.25 * 24 * 3600)) * (2 * PI / (365.25 * 24 * 3600))
    * (1.496e11 * 1.496e11 * 1.496e11 / (6.67430e-11 * 1.989e30))
    * (a * a * a).
Proof.
  intros Ha. unfold keplerPeriod.
  set (q := a * 1.496e11 * (a * 1.496e11) * (a * 1.496e11)
            / (6.67430e-11 * 1.989e30)).
  assert (Hq : 0 <= q).
  { unfold q. apply Rmult_le_pos; [|lra].
    apply Rmult_le_pos; [apply Rmult_le_pos|]; lra. }
  pose proof (sqrt_sqrt q Hq) as Hs.
  replace (2 * PI * sqrt q / (365.25 * 24 * 3600)
           * (2 * PI * sqrt q / (365.25 * 24 * 3600)))
    with ((2 * PI / (365.25 * 24 * 3600)) * (2 * PI / (365.25 * 24 * 3600))
          * (sqrt q * sqrt q)) by (field; lra).
  rewrite Hs. unfold q. field. lra.
Qed.

Lemma keplerPeriod_pos (a : R) : 0 < a -> 0 < keplerPeriod a.
Proof.
  intros Ha. unfold keplerPeriod. pose proof PI_bounds as [Hpi _].
  apply Rdiv_lt_0_compat; [|lra].
  apply Rmult_lt_0_compat; [lra|]. apply sqrt_lt_R0.
  apply Rdiv_lt_0_compat; [|lra].
  apply Rmult_lt_0_compat; [apply Rmult_lt_0_compat|]; lra.
Qed.

(** X8.  Kepler's third law: for two positive semi-major axes the squares of the
    periods that [verifyKeplersThirdLaw] returns are in the ratio of the
    cubes of the axes.  The axes are taken between [1e-90] and [1e90] AU,
    where the cube [a * a * a] (in metres) neither overflows nor
    vanishes. *)
Theorem keplers_third_law (a1 a2 : R) (e1 e2 P1 P2 : num) :
  1e-90 <= a1 <= 1e90 -> 1e-90 <= a2 <= 1e90 ->
  exists T1 T2 : R,
    verifyKeplersThirdLaw (mkPlanet (Fin a1) e1 P1) = Fin T1 /\
    verifyKeplersThirdLaw (mkPlanet (Fin a2) e2 P2) = Fin T2 /\
    0 < T1 /\ 0 < T2 /\
    T1 * T1 * (a2 * a2 * a2) = T2 * T2 * (a1 * a1 * a1).
Proof.
  intros H1 H2. exists (keplerPeriod a1), (keplerPeriod a2).
  rewrite !verifyKeplersThirdLaw_value by lra.
  split; [done|]. split; [done|].
  split; [apply keplerPeriod_pos; lra|]. split; [apply keplerPeriod_pos; lra|].
  rewrite !keplerPeriod_square by lra. ring.
Qed.

Lemma keplers_third_law_witness :
  exists T1 T2 : R,
    verifyKeplersThirdLaw (mkPlanet (Fin 1.0) (Fin 0.017) (Fin 1.0)) = Fin T1 /\
    verifyKeplersThirdLaw (mkPlanet (Fin 5.203) (Fin 0.048) (Fin 11.86)) = Fin T2 /\
    0 < T1 /\ 0 < T2 /\
    T1 * T1 * (5.203 * 5.203 * 5.203) = T2 * T2 * (1.0 * 1.0 * 1.0).
Proof.
  apply (keplers_third_law 1.0 5.203 (Fin 0.017) (Fin 0.048) (Fin 1.0) (Fin 11.86));
    lra.
Defined.

(** X9.  [verifyKeplersThirdLaw] does not validate its input: a negative or NaN
    semi-major axis gives NaN and an infinite one gives [Infinity].  The
    negative axes are taken below [-1e-90], where the cube does not
    vanish. *)
Theorem verifyKeplersThirdLaw_unvalidated (e T : num) :
  (forall a : R, a <= -1e-90 ->
     verifyKeplersThirdLaw (mkPlanet (Fin a) e T) = NaN) /\
  verifyKeplersThirdLaw (mkPlanet NaN e T) = NaN /\
  verifyKeplersThirdLaw (mkPlanet NInf e T) = NaN /\
  verifyKeplersThirdLaw (mkPlanet PInf e T) = PInf.
Proof.
  unfold verifyKeplersThirdLaw, G, AU, SOLAR_MASS. cbn [semiMajorAxis].
  pose proof PI_bounds as [Hpi _].
  split; [|split; [|split]].
  - intros a Ha. num_unfold.
    rewrite (bool_decide_eq_false_2 (6.67430e-11 * 1.989e30 = 0)) by lra.
    num_unfold.
    assert (Hq : a * 1.496e11 * (a * 1.496e11) * (a * 1.496e11)
                 / (6.67430e-11 * 1.989e30) < 0).
    { set (b := a * 1.496e11). assert (Hb : b < 0) by (unfold b; lra).
      assert (Hbb : 0 < b * b) by nra.
      assert (Hbbb : b * b * b < 0) by nra.
      assert (Hinv : 0 < / (6.67430e-11 * 1.989e30))
        by (apply Rinv_0_lt_compat; lra).
      unfold Rdiv. nra. }
    rewrite (bool_decide_eq_true_2 (_ < 0)) by lra. reflexivity.
  - reflexivity.
  - by rdecide.
  - by rdecide.
Qed.

Lemma verifyKeplersThirdLaw_unvalidated_witness :
  verifyKeplersThirdLaw (mkPlanet (Fin (-1)) (Fin 0) (Fin 1)) = NaN.
Proof.
  apply (proj1 (verifyKeplersThirdLaw_unvalidated (Fin 0) (Fin 1))). lra.
Defined.

(** X10.  On a circular path of radius [a] the vis-viva speed and the period of
    the third law agree: speed times period is the circumference
    [2 pi a] (speed in km/s, period in years, [a] in AU, taken between
    [1e-90] and [1e90] so that its cube neither overflows nor vanishes). *)
Theorem speed_times_period_is_circumference (a e px py : R) (T : num) :
  1e-90 <= a <= 1e90 -> sqrt (px * px + py * py) = a ->
  exists v Ty : R,
    calculateOrbitalVelocity (mkPlanet (Fin a) (Fin e) T) (mkVec2 (Fin px) (Fin py))
      = Fin v /\
    verifyKeplersThirdLaw (mkPlanet (Fin a) (Fin e) T) = Fin Ty /\
    (v * 1000) * (Ty * (365.25 * 24 * 3600)) = 2 * PI * (a * 1.496e11).
Proof.
  intros Ha Hr.
  rewrite calculateOrbitalVelocity_finite by lra.
  rewrite verifyKeplersThirdLaw_value by lra. rewrite Hr.
  eexists _, _. split; [reflexivity|]. split; [reflexivity|].
  unfold visViva, keplerPeriod.
  set (gm := 6.67430e-11 * 1.989e30). assert (Hgm : 0 < gm) by (unfold gm; lra).
  set (r := a * 1.496e11). assert (Hr0 : 0 < r) by (unfold r; lra).
  replace (gm * (2 / r - 1 / r)) with (gm / r) by (field; lra).
  assert (H1 : 0 < gm / r) by (by apply Rdiv_lt_0_compat).
  rewrite Rabs_pos_eq by lra.
  assert (H2 : 0 <= r * r * r / gm).
  { apply Rmult_le_pos; [|left; by apply Rinv_0_lt_compat].
    apply Rmult_le_pos; [apply Rmult_le_pos|]; lra. }
  assert (Hprod : sqrt (gm / r) * sqrt (r * r * r / gm) = r).
  { rewrite <- sqrt_mult by lra.
    replace (gm / r * (r * r * r / gm)) with (r * r) by (field; lra).
    apply sqrt_square. lra. }
  replace (sqrt (gm / r) / 1000 * 1000 *
           (2 * PI * sqrt (r * r * r / gm) / (365.25 * 24 * 3600)
            * (365.25 * 24 * 3600)))
    with (2 * PI * (sqrt (gm / r) * sqrt (r * r * r / gm))) by (field; lra).
  by rewrite Hprod.
Qed.

Lemma speed_times_period_is_circumference_witness :
  exists v Ty : R,
    calculateOrbitalVelocity (mkPlanet (Fin 1) (Fin 0) (Fin 1)) (mkVec2 (Fin 1) (Fin 0))
      = Fin v /\
    verifyKeplersThirdLaw (mkPlanet (Fin 1) (Fin 0) (Fin 1)) = Fin Ty /\
    (v * 1000) * (Ty * (365.25 * 24 * 3600)) = 2 * PI * (1 * 1.496e11).
Proof.
  apply (speed_times_period_is_circumference 1 0 1 0 (Fin 1)); [lra|].
  replace (1 * 1 + 0 * 0) with (1 * 1) by lra. apply sqrt_square. lra.
Defined.

(** A sharper enclosure of [PI], from [sin (PI / 6) = 1 / 2]. *)
Lemma PI_tight : 3.14 < PI < 3.15.
Proof.
  pose proof PI_bounds as [Hlo Hhi]. pose proof sin_PI6 as H6.
  split.
  - destruct (Rlt_dec 3.14 PI) as [H|H]; [done|].
    assert (Hs : sin (PI / 6) <= sin (3.14 / 6)) by (apply sin_incr_1; lra).
    pose proof (sin_upper (3.14 / 6) ltac:(lra)) as Hu. lra.
  - destruct (Rlt_dec PI 3.15) as [H|H]; [done|].
    assert (Hs : sin 0.525 <= sin (PI / 6)) by (apply sin_incr_1; lra).
    pose proof (sin_lower 0.525 ltac:(lra)) as Hl. lra.
Qed.

(** The period of the third law is within one percent of [P] as soon as
    [a^3 / GM] lies between two rational bounds. *)
Lemma keplerPeriod_within (a P : R) :
  0 < a -> 0 < P ->
  (0.99 * P * (365.25 * 24 * 3600) / 6.28) * (0.99 * P * (365.25 * 24 * 3600) / 6.28)
    <= a * 1.496e11 * (a * 1.496e11) * (a * 1.496e11) / (6.67430e-11 * 1.989e30) ->
  a * 1.496e11 * (a * 1.496e11) * (a * 1.496e11) / (6.67430e-11 * 1.989e30)
    <= (1.01 * P * (365.25 * 24 * 3600) / 6.3) * (1.01 * P * (365.25 * 24 * 3600) / 6.3) ->
  Rabs (keplerPeriod a - P) <= 0.01 * P.
Proof.
  intros Ha HP Hlo Hhi. unfold keplerPeriod.
  set (q := a * 1.496e11 * (a * 1.496e11) * (a * 1.496e11)
            / (6.67430e-11 * 1.989e30)) in *.
  set (l := 0.99 * P * (365.25 * 24 * 3600) / 6.28) in *.
  set (u := 1.01 * P * (365.25 * 24 * 3600) / 6.3) in *.
  assert (Hl : 0 <= l) by (unfold l; lra).
  assert (Hu : 0 <= u) by (unfold u; lra).
  assert (Hsl : l <= sqrt q).
  { rewrite <- (sqrt_square l) by done. apply sqrt_le_1_alt. lra. }
  assert (Hsu : sqrt q <= u).
  { rewrite <- (sqrt_square u) by done. apply sqrt_le_1_alt. lra. }
  pose proof PI_tight as [Hp1 Hp2].
  assert (Hlow : 0.99 * P <= 2 * PI * sqrt q / (365.25 * 24 * 3600)).
  { apply (Rmult_le_reg_r (365.25 * 24 * 3600)); [lra|].
    replace (2 * PI * sqrt q / (365.25 * 24 * 3600) * (365.25 * 24 * 3600))
      with (2 * PI * sqrt q) by (field; lra).
    unfold l in Hsl. nra. }
  assert (Hupp : 2 * PI * sqrt q / (365.25 * 24 * 3600) <= 1.01 * P).
  { apply (Rmult_le_reg_r (365.25 * 24 * 3600)); [lra|].
    replace (2 * PI * sqrt q / (365.25 * 24 * 3600) * (365.25 * 24 * 3600))
      with (2 * PI * sqrt q) by (field; lra).
    unfold u in Hsu. pose proof (sqrt_pos q). nra. }
  apply Rabs_le. lra.
Qed.

(** X11.  The configuration file is consistent with the third law: for each of
    the eight planets of [PLANETS], the period that [verifyKeplersThirdLaw]
    derives from the semi-major axis is within one percent of the configured
    [period]. *)
Theorem configured_periods_agree (key : string) (planet : Planet) :
  PLANETS !! key = Some planet ->
  exists P Ty : R,
    period planet = Fin P /\
    verifyKeplersThirdLaw planet = Fin Ty /\
    Rabs (Ty - P) <= 0.01 * P.
Proof.
  unfold PLANETS. intros H.
  repeat (apply lookup_insert_Some in H as [[_ <-] | [_ H]];
          [ eexists _, _; split; [reflexivity|];
            split; [apply verifyKeplersThirdLaw_value; lra|];
            apply keplerPeriod_within; lra
          | ]).
  by rewrite lookup_empty in H.
Qed.

Lemma configured_periods_agree_witness :
  exists P Ty : R,
    period earth = Fin P /\
    verifyKeplersThirdLaw earth = Fin Ty /\
    Rabs (Ty - P) <= 0.01 * P.
Proof. apply (configured_periods_agree "earth" earth). exact PLANETS_earth. Defined.

(** ** The mean anomaly *)

Lemma trunc_spec (q : R) :
  (0 <= q -> 0 <= q - IZR (trunc q) < 1) /\
  (q <= 0 -> -1 < q - IZR (trunc q) <= 0).
Proof.
  unfold trunc. case_bool_decide as Hq.
  - pose proof (base_Int_part q) as [H1 H2]. split; [intros _; lra|].
    intros Hq'. assert (q = 0) as -> by lra.
    assert (Hz : (Int_part 0 = 0)%Z).
    { assert (-1 < Int_part 0)%Z by (apply lt_IZR; lra).
      assert (Int_part 0 <= 0)%Z by (apply le_IZR; lra). lia. }
    rewrite Hz. lra.
  - pose proof (base_Int_part (- q)) as [H1 H2]. rewrite opp_IZR.
    split; [lra|]. intros _. lra.
Qed.

(** The remainder [a % b] for a positive divisor: it has the sign of the
    dividend, its magnitude is below [b], and it differs from [a] by a
    multiple of [b]. *)
Lemma rem_spec (a b : R) :
  0 < b ->
  exists (m : R) (k : Z),
    (Fin a %% Fin b)%num = Fin m /\ a = m + b * IZR k /\
    (0 <= a -> 0 <= m < b) /\ (a <= 0 -> - b < m <= 0).
Proof.
  intros Hb. exists (a - b * IZR (trunc (a / b))), (trunc (a / b)).
  cbn [rem]. rewrite bool_decide_eq_false_2 by lra.
  split; [reflexivity|]. split; [lra|].
  destruct (trunc_spec (a / b)) as [Hpos Hneg].
  assert (Hdiv : a = b * (a / b)) by (field; lra).
  assert (Hinv : 0 < / b) by (by apply Rinv_0_lt_compat).
  set (q := a / b) in *. set (z := IZR (trunc q)) in *.
  split; intros Ha.
  - assert (Hq : 0 <= q) by (unfold q, Rdiv; nra).
    specialize (Hpos Hq). rewrite Hdiv. nra.
  - assert (Hq : q <= 0) by (unfold q, Rdiv; nra).
    specialize (Hneg Hq). rewrite Hdiv. nra.
Qed.

Lemma meanAnomalyAt_range (t D : R) :
  0 < D ->
  exists (m : R) (k : Z),
    meanAnomalyAt (Fin t) (Fin D) = Fin m /\
    2 * PI * t / D = m + 2 * PI * IZR k /\
    - (2 * PI) < m < 2 * PI /\
    (0 <= t -> 0 <= m) /\ (t <= 0 -> m <= 0).
Proof.
  intros HD. pose proof PI_bounds as [Hpi _].
  unfold meanAnomalyAt. num_unfold.
  rewrite (bool_decide_eq_false_2 (D = 0)) by lra.
  destruct (rem_spec (2 * PI * t / D) (2 * PI) ltac:(lra))
    as (m & k & Hrem & Heq & Hpos & Hneg).
  exists m, k. split; [exact Hrem|]. split; [exact Heq|].
  assert (Hinv : 0 < / D) by (by apply Rinv_0_lt_compat).
  destruct (Rle_dec 0 t) as [Ht|Ht].
  - assert (Ha : 0 <= 2 * PI * t / D).
    { unfold Rdiv. apply Rmult_le_pos; [|lra]. apply Rmult_le_pos; lra. }
    specialize (Hpos Ha). split; [lra|]. split; [lra|].
    intros Ht'. assert (t = 0) as -> by lra.
    assert (Ha0 : 2 * PI * 0 / D <= 0) by (unfold Rdiv; lra).
    specialize (Hneg Ha0). lra.
  - assert (Ha : 2 * PI * t / D <= 0).
    { replace (2 * PI * t / D) with (- (2 * PI * (- t) * / D)) by (field; lra).
      assert (0 <= 2 * PI * (- t) * / D); [|lra].
      apply Rmult_le_pos; [|lra]. apply Rmult_le_pos; lra. }
    specialize (Hneg Ha). split; [lra|]. split; [intros; lra | intros; lra].
Qed.

(** X12.  The mean anomaly that [update] and [initializePlanets] store, for a
    time [t] and a period [D] (days): it is [2 pi t / D] up to a multiple of
    [2 pi], it lies strictly between [- 2 pi] and [2 pi], and it has the
    sign of the time, so it is in [[0, 2 pi)] exactly when the time is not
    negative.  The period is taken between [1e-100] and [1e100] days and
    the time within [1e9] periods of the epoch, where the quotient of the
    code is finite and differs from the exact one by rounding only. *)
Theorem meanAnomaly_reduced (t D : R) :
  1e-100 <= D <= 1e100 -> Rabs t <= 1e9 * D ->
  exists (m : R) (k : Z),
    meanAnomalyAt (Fin t) (Fin D) = Fin m /\
    2 * PI * t / D = m + 2 * PI * IZR k /\
    - (2 * PI) < m < 2 * PI /\
    (0 <= t -> 0 <= m) /\ (t <= 0 -> m <= 0).
Proof. intros HD _. apply (meanAnomalyAt_range t D). lra. Qed.

Lemma meanAnomaly_reduced_witness :
  exists (m : R) (k : Z),
    meanAnomalyAt (Fin 1000) (Fin 365.25) = Fin m /\
    2 * PI * 1000 / 365.25 = m + 2 * PI * IZR k /\
    - (2 * PI) < m < 2 * PI /\
    (0 <= 1000 -> 0 <= m) /\ (1000 <= 0 -> m <= 0).
Proof.
  apply (meanAnomaly_reduced 1000 365.25); [lra|].
  rewrite Rabs_pos_eq; lra.
Defined.

(** ** Symmetries of the solver and of the position *)

(** The loop started from [E + c] for the mean anomaly [M + c], where [c]
    is a multiple of [2 pi], does what the loop started from [E] does for
    [M], shifted by [c]. *)
Lemma newtonLoop_shift (M e : R) (tol : num) (k : Z) (fuel : nat) :
  forall (E1 E2 : R) (d : num) (i : nat) (nz : bool),
    E2 = E1 + 2 * PI * IZR k ->
    exists E1' d' i' nz',
      newtonLoop fuel (Fin M) (Fin e) tol (mkNewton (Fin E1) d i nz)
        = mkNewton (Fin E1') d' i' nz' /\
      newtonLoop fuel (Fin (M + 2 * PI * IZR k)) (Fin e) tol (mkNewton (Fin E2) d i nz)
        = mkNewton (Fin (E1' + 2 * PI * IZR k)) d' i' nz'.
Proof.
  induction fuel as [|fuel IH]; intros E1 E2 d i nz ->.
  - by exists E1, d, i, nz.
  - rewrite !newtonLoop_S. cbn [E delta iterations].
    destruct ((Math_abs d >? tol)%num && (i <? maxIterations)%nat);
      [|by exists E1, d, i, nz].
    destruct (sin_cos_period_Z E1 k) as [Hs Hc].
    num_unfold. rewrite Hs, Hc.
    destruct (bool_decide (Rabs (1 + - (e * cos E1)) < 1e-10)) eqn:Hden;
      [by exists E1, d, i, true|].
    apply bool_decide_eq_false in Hden.
    assert (Hz : 1 + - (e * cos E1) <> 0).
    { intros Hz. rewrite Hz, Rabs_R0 in Hden. lra. }
    rewrite !(bool_decide_eq_false_2 (1 + - (e * cos E1) = 0)) by done.
    replace (E1 + 2 * PI * IZR k + - (e * sin E1) + - (M + 2 * PI * IZR k))
      with (E1 + - (e * sin E1) + - M) by ring.
    apply IH. ring.
Qed.

Lemma solveKeplersEquation_add_turns (M : R) (e tol : num) (k : Z) :
  isNaN e = false ->
  exists Ev : R,
    solveKeplersEquation (Fin M) e tol = Fin Ev /\
    solveKeplersEquation (Fin (M + 2 * PI * IZR k)) e tol
      = Fin (Ev + 2 * PI * IZR k).
Proof.
  intros He. unfold solveKeplersEquation, solveKeplersLoop.
  rewrite He. cbn [isNaN orb].
  destruct (clampEccentricity_range e He) as (c & -> & _).
  destruct (newtonLoop_shift M c tol k maxIterations M (M + 2 * PI * IZR k)
              (Fin 1) 0%nat false eq_refl)
    as (E1' & d' & i' & nz' & -> & ->).
  by exists E1'.
Qed.



Lemma calculateOrbitalPosition_add_turns (planet : Planet) (M : R) (k : Z) :
  calculateOrbitalPosition planet (Fin (M + 2 * PI * IZR k)) =
  calculateOrbitalPosition planet (Fin M).
Proof.
  assert (Htry : calculateOrbitalPosition_try planet (Fin (M + 2 * PI * IZR k)) =
                 calculateOrbitalPosition_try planet (Fin M)).
  { unfold calculateOrbitalPosition_try.
    destruct (isNaN (semiMajorAxis planet) || _); [done|].
    destruct (isNaN (eccentricity planet) || _ || _) eqn:He; [done|].
    cbn [isNaN].
    assert (Hnan : isNaN (eccentricity planet) = false).
    { by destruct (isNaN (eccentricity planet)). }
    destruct (solveKeplersEquation_add_turns M (eccentricity planet) defaultTolerance
                k Hnan) as (Ev & -> & ->).
    destruct (sin_cos_period_Z Ev k) as [Hs Hc].
    cbn [Math_cos Math_sin]. by rewrite Hs, Hc. }
  unfold calculateOrbitalPosition. by rewrite Htry.
Qed.



Lemma mul_Fin_opp (A : num) (s : R) : (A * Fin (- s))%num = neg (A * Fin s)%num.
Proof.
  destruct A as [| | |a]; cbn [mul neg]; try done.
  - destruct (Req_dec s 0) as [->|Hs].
    + rewrite !bool_decide_eq_true_2 by lra. reflexivity.
    + rewrite !bool_decide_eq_false_2 by lra. unfold inf_of_sign.
      destruct (Rlt_dec s 0).
      * rewrite (bool_decide_eq_false_2 (- s < 0)), (bool_decide_eq_true_2 (s < 0));
          [done | lra | lra].
      * rewrite (bool_decide_eq_true_2 (- s < 0)), (bool_decide_eq_false_2 (s < 0));
          [done | lra | lra].
  - destruct (Req_dec s 0) as [->|Hs].
    + rewrite !bool_decide_eq_true_2 by lra. reflexivity.
    + rewrite !bool_decide_eq_false_2 by lra. unfold inf_of_sign.
      destruct (Rlt_dec s 0).
      * rewrite (bool_decide_eq_true_2 (- - s < 0)), (bool_decide_eq_false_2 (- s < 0));
          [done | lra | lra].
      * rewrite (bool_decide_eq_false_2 (- - s < 0)), (bool_decide_eq_true_2 (- s < 0));
          [done | lra | lra].
  - f_equal. ring.
Qed.

(** The loop started from [- E] for the mean anomaly [- M] mirrors the loop
    started from [E] for [M]. *)
Lemma newtonLoop_mirror (M e : R) (tol : num) (fuel : nat) :
  forall (E1 E2 : R) (d1 d2 : num) (i : nat) (nz : bool),
    E2 = - E1 -> Math_abs d2 = Math_abs d1 ->
    exists E1' d1' d2' i' nz',
      newtonLoop fuel (Fin M) (Fin e) tol (mkNewton (Fin E1) d1 i nz)
        = mkNewton (Fin E1') d1' i' nz' /\
      newtonLoop fuel (Fin (- M)) (Fin e) tol (mkNewton (Fin E2) d2 i nz)
        = mkNewton (Fin (- E1')) d2' i' nz'.
Proof.
  induction fuel as [|fuel IH]; intros E1 E2 d1 d2 i nz -> Habs.
  - by exists E1, d1, d2, i, nz.
  - rewrite !newtonLoop_S. cbn [E delta iterations]. rewrite Habs.
    destruct ((Math_abs d1 >? tol)%num && (i <? maxIterations)%nat);
      [|by exists E1, d1, d2, i, nz].
    num_unfold. rewrite cos_neg, sin_neg.
    destruct (bool_decide (Rabs (1 + - (e * cos E1)) < 1e-10)) eqn:Hden;
      [by exists E1, d1, d2, i, true|].
    apply bool_decide_eq_false in Hden.
    assert (Hz : 1 + - (e * cos E1) <> 0).
    { intros Hz. rewrite Hz, Rabs_R0 in Hden. lra. }
    rewrite !(bool_decide_eq_false_2 (1 + - (e * cos E1) = 0)) by done.
    set (dv := (E1 + - (e * sin E1) + - M) / (1 + - (e * cos E1))).
    replace ((- E1 + - (e * - sin E1) + - - M) / (1 + - (e * cos E1)))
      with (- dv) by (unfold dv; field; done).
    apply IH; [ring|]. cbn [Math_abs]. by rewrite Rabs_Ropp.
Qed.

Lemma solveKeplersEquation_neg (M : R) (e tol : num) :
  isNaN e = false ->
  exists Ev : R,
    solveKeplersEquation (Fin M) e tol = Fin Ev /\
    solveKeplersEquation (Fin (- M)) e tol = Fin (- Ev).
Proof.
  intros He. unfold solveKeplersEquation, solveKeplersLoop.
  rewrite He. cbn [isNaN orb].
  destruct (clampEccentricity_range e He) as (c & -> & _).
  destruct (newtonLoop_mirror M c tol maxIterations M (- M) (Fin 1) (Fin 1)
              0%nat false eq_refl eq_refl)
    as (E1' & d1' & d2' & i' & nz' & -> & ->).
  by exists E1'.
Qed.

(** X15.  The solver is odd in the mean anomaly, for every eccentricity that is
    not NaN and every tolerance. *)
Theorem solveKeplersEquation_odd (M : R) (e tol : num) :
  isNaN e = false ->
  exists Ev : R,
    solveKeplersEquation (Fin M) e tol = Fin Ev /\
    solveKeplersEquation (Fin (- M)) e tol = Fin (- Ev).
Proof. exact (solveKeplersEquation_neg M e tol). Qed.

Lemma solveKeplersEquation_odd_witness :
  exists Ev : R,
    solveKeplersEquation (Fin 1) (Fin 0.5) defaultTolerance = Fin Ev /\
    solveKeplersEquation (Fin (- (1))) (Fin 0.5) defaultTolerance = Fin (- Ev).
Proof. apply (solveKeplersEquation_odd 1 (Fin 0.5) defaultTolerance). reflexivity. Defined.

(** X16.  The orbit is symmetric about its major axis: the position at mean
    anomaly [- M] is the mirror image [(x, - y)] of the position at [M],
    for every planet. *)
Theorem position_mirror (planet : Planet) (M : R) :
  calculateOrbitalPosition planet (Fin (- M)) =
  mkVec2 (x (calculateOrbitalPosition planet (Fin M)))
         (neg (y (calculateOrbitalPosition planet (Fin M)))).
Proof.
  unfold calculateOrbitalPosition, calculateOrbitalPosition_try.
  assert (Hzero : Fin 0 = neg (Fin 0)) by (cbn; f_equal; lra).
  destruct (isNaN (semiMajorAxis planet) || _);
    [cbn [x y]; by rewrite <- Hzero|].
  destruct (isNaN (eccentricity planet) || _ || _) eqn:He;
    [cbn [x y]; by rewrite <- Hzero|].
  cbn [isNaN].
  assert (Hnan : isNaN (eccentricity planet) = false).
  { by destruct (isNaN (eccentricity planet)). }
  destruct (solveKeplersEquation_neg M (eccentricity planet) defaultTolerance Hnan)
    as (Ev & -> & ->).
  cbn [Math_cos Math_sin]. rewrite cos_neg, sin_neg, mul_Fin_opp.
  set (px := (semiMajorAxis planet * (Fin (cos Ev) - eccentricity planet))%num).
  set (py := (semiMajorAxis planet
              * Math_sqrt (Fin 1 - eccentricity planet * eccentricity planet)
              * Fin (sin Ev))%num).
  assert (Hfin : isFinite (neg py) = isFinite py) by (by destruct py).
  rewrite Hfin.
  destruct (negb (isFinite px) || negb (isFinite py));
    cbn [x y]; [by rewrite <- Hzero | reflexivity].
Qed.

(** ** Closed orbits *)

(** X17.  A whole number of orbital periods later, [update] stores the same
    position and the same velocity for the body.  The elements are valid
    and at a scale the code can compute with, the eccentricity is at most
    [0.9] (where the solver converges), and the two times are within [1e9]
    periods of the epoch. *)
Theorem orbit_closes (a e P t : R) (j : Z) (trails : bool) (n : nat)
    (state : PlanetState) :
  data state = mkPlanet (Fin a) (Fin e) (Fin P) ->
  wellScaled a e P -> e <= 0.9 ->
  Rabs t <= 1e9 * (P * 365.25) ->
  Rabs (t + IZR j * (P * 365.25)) <= 1e9 * (P * 365.25) ->
  position (updatePlanet (Fin (t + IZR j * (P * 365.25))) trails n state) =
    position (updatePlanet (Fin t) trails n state) /\
  velocity (updatePlanet (Fin (t + IZR j * (P * 365.25))) trails n state) =
    velocity (updatePlanet (Fin t) trails n state).
Proof.
  intros Hdata Hscale _ _ _.
  assert (HP : period (data state) = Fin P) by (by rewrite Hdata).
  assert (Hpos : 0 < P) by (destruct Hscale as (_ & _ & _ & _ & HT); lra).
  assert (Hok : skipped (data state) = false)
    by (rewrite Hdata; by apply wellScaled_not_skipped).
  assert (Hsame : position (updatePlanet (Fin (t + IZR j * (P * 365.25))) trails n state) =
                  position (updatePlanet (Fin t) trails n state)).
  { unfold updatePlanet. unfold skipped in Hok. rewrite Hok. cbn [position].
    rewrite HP. cbn [mul].
    destruct (meanAnomalyAt_range t (P * 365.25) ltac:(lra))
      as (m1 & k1 & -> & Heq1 & _).
    destruct (meanAnomalyAt_range (t + IZR j * (P * 365.25)) (P * 365.25) ltac:(lra))
      as (m2 & k2 & -> & Heq2 & _).
    replace m2 with (m1 + 2 * PI * IZR (k1 + j - k2)).
    - apply calculateOrbitalPosition_add_turns.
    - rewrite minus_IZR, plus_IZR.
      replace (2 * PI * (t + IZR j * (P * 365.25)) / (P * 365.25))
        with (2 * PI * t / (P * 365.25) + 2 * PI * IZR j) in Heq2 by (field; lra).
      lra. }
  split; [exact Hsame|].
  destruct (updatePlanet_velocity (Fin (t + IZR j * (P * 365.25))) trails n state Hok)
    as [_ ->].
  destruct (updatePlanet_velocity (Fin t) trails n state Hok) as [_ ->].
  by rewrite Hsame.
Qed.

Lemma orbit_closes_witness :
  position (updatePlanet (Fin (10 + IZR 3 * (1.0 * 365.25))) true 1 earthAtEpoch) =
    position (updatePlanet (Fin 10) true 1 earthAtEpoch) /\
  velocity (updatePlanet (Fin (10 + IZR 3 * (1.0 * 365.25))) true 1 earthAtEpoch) =
    velocity (updatePlanet (Fin 10) true 1 earthAtEpoch).
Proof.
  apply (orbit_closes 1.0 0.017 1.0 10 3 true 1 earthAtEpoch).
  - reflexivity.
  - exact wellScaled_earth.
  - lra.
  - rewrite Rabs_pos_eq; lra.
  - rewrite Rabs_pos_eq; lra.
Defined.

(** ** The picture: orbits, planets and markers *)

Lemma position_at_mean_anomaly_0 (a e : R) (T : num) :
  0 < a -> 0 <= e < 1 ->
  calculateOrbitalPosition (mkPlanet (Fin a) (Fin e) T) (Fin 0) =
    mkVec2 (Fin (a * (1 - e))) (Fin 0).
Proof.
  intros Ha He.
  rewrite (calculateOrbitalPosition_valid a e 0 0 T Ha He).
  - rewrite cos_0, sin_0. f_equal. f_equal. ring.
  - apply solveKeplersEquation_solution; [done|]. rewrite sin_0. ring.
Qed.

Lemma position_at_mean_anomaly_PI (a e : R) (T : num) :
  0 < a -> 0 <= e < 1 ->
  calculateOrbitalPosition (mkPlanet (Fin a) (Fin e) T) (Fin PI) =
    mkVec2 (Fin (- a * (1 + e))) (Fin 0).
Proof.
  intros Ha He.
  rewrite (calculateOrbitalPosition_valid a e PI PI T Ha He).
  - rewrite cos_PI, sin_PI. f_equal; f_equal; ring.
  - apply solveKeplersEquation_solution; [done|]. rewrite sin_PI. ring.
Qed.

(** X18.  Every planet is drawn on the orbit drawn for it: for valid elements, a
    finite mean anomaly and a positive scale, the screen position that
    [drawPlanets] uses satisfies the equation of the ellipse that
    [drawOrbits] strokes, whose radii are positive.  The axis, the scale
    and the centre of the canvas are taken between [1e-100] and [1e100] in
    magnitude, where no product of the code overflows or vanishes. *)
Theorem planet_drawn_on_orbit (a e M cx cy s : R) (T bs z : num)
    (sel : option string) :
  1e-100 <= a -> a * (1 + e) <= 1e100 -> 1e-100 <= s <= 1e100 ->
  Rabs cx <= 1e100 -> Rabs cy <= 1e100 ->
  0 < a -> 0 <= e < 1 -> 0 < s ->
  exists sx sy ex ey rx ry : R,
    screenPosition (mkView (Fin cx) (Fin cy) bs z sel) (Fin s)
      (calculateOrbitalPosition (mkPlanet (Fin a) (Fin e) T) (Fin M))
      = mkVec2 (Fin sx) (Fin sy) /\
    orbitEllipse (mkView (Fin cx) (Fin cy) bs z sel) (Fin s)
      (mkPlanet (Fin a) (Fin e) T)
      = mkEllipse (Fin ex) (Fin ey) (Fin rx) (Fin ry) /\
    0 < rx /\ 0 < ry /\
    ry * ry * ((sx - ex) * (sx - ex)) + rx * rx * ((sy - ey) * (sy - ey))
      = rx * rx * (ry * ry).
Proof.
  intros _ _ _ _ _ Ha He Hs.
  destruct (calculateOrbitalPosition_on_orbit a e M T Ha He) as [Ev ->].
  unfold screenPosition, orbitEllipse, sq.
  cbn [x y centerX centerY semiMajorAxis eccentricity]. num_unfold.
  rewrite (bool_decide_eq_false_2 (1 + - (e * e) < 0)) by nra. num_unfold.
  eexists _, _, _, _, _, _. split; [reflexivity|]. split; [reflexivity|].
  assert (Hq : 0 < sqrt (1 + - (e * e))) by (apply sqrt_lt_R0; nra).
  pose proof (sqrt_sqrt (1 + - (e * e)) ltac:(nra)) as Hqq.
  pose proof (sin2_cos2 Ev) as Hsc. unfold Rsqr in Hsc.
  replace (1 - e * e) with (1 + - (e * e)) by ring.
  set (q := sqrt (1 + - (e * e))) in *.
  set (sn := sin Ev) in *. set (cs := cos Ev) in *.
  split; [nra|]. split; [apply Rmult_lt_0_compat; nra|].
  replace (cx + a * (cs - e) * s - (cx + - (a * s * e))) with (a * s * cs) by ring.
  replace (cy + - (a * q * sn * s) - cy) with (- (a * s * q * sn)) by ring.
  replace (a * s * q * (a * s * q) * (a * s * cs * (a * s * cs)) +
           a * s * (a * s) * (- (a * s * q * sn) * - (a * s * q * sn)))
    with (a * s * (a * s) * (a * s * (a * s)) * (q * q) * (cs * cs + sn * sn))
    by ring.
  replace (cs * cs + sn * sn) with 1 by lra. ring.
Qed.

Lemma planet_drawn_on_orbit_witness :
  exists sx sy ex ey rx ry : R,
    screenPosition (mkView (Fin 400) (Fin 300) (Fin 8) (Fin 1.1) None) (Fin 8.8)
      (calculateOrbitalPosition (mkPlanet (Fin 1.524) (Fin 0.093) (Fin 1.881)) (Fin 2))
      = mkVec2 (Fin sx) (Fin sy) /\
    orbitEllipse (mkView (Fin 400) (Fin 300) (Fin 8) (Fin 1.1) None) (Fin 8.8)
      (mkPlanet (Fin 1.524) (Fin 0.093) (Fin 1.881))
      = mkEllipse (Fin ex) (Fin ey) (Fin rx) (Fin ry) /\
    0 < rx /\ 0 < ry /\
    ry * ry * ((sx - ex) * (sx - ex)) + rx * rx * ((sy - ey) * (sy - ey))
      = rx * rx * (ry * ry).
Proof.
  apply (planet_drawn_on_orbit 1.524 0.093 2 400 300 8.8 (Fin 1.881) (Fin 8)
           (Fin 1.1) None); try (rewrite Rabs_pos_eq; lra); lra.
Defined.

(** X19.  The markers of [drawPeriAphelion] are where [drawPlanets] puts the
    planet at mean anomaly [0] and at mean anomaly [pi], and they are the
    two ends of the major axis of the ellipse of [drawOrbits].  The
    aphelion distance, the scale and the centre of the canvas are taken
    below [1e100] in magnitude, where no product of the code overflows. *)
Theorem apsis_markers_on_orbit (a e cx cy s : R) (T bs z : num)
    (sel : option string) :
  a * (1 + e) <= 1e100 -> Rabs s <= 1e100 ->
  Rabs cx <= 1e100 -> Rabs cy <= 1e100 ->
  0 < a -> 0 <= e < 1 ->
  let v := mkView (Fin cx) (Fin cy) bs z sel in
  let planet := mkPlanet (Fin a) (Fin e) T in
  perihelionMarker v (Fin s) planet =
    screenPosition v (Fin s) (calculateOrbitalPosition planet (Fin 0)) /\
  aphelionMarker v (Fin s) planet =
    screenPosition v (Fin s) (calculateOrbitalPosition planet (Fin PI)) /\
  perihelionMarker v (Fin s) planet =
    mkVec2 (ellipseX (orbitEllipse v (Fin s) planet)
            + radiusX (orbitEllipse v (Fin s) planet))%num
           (ellipseY (orbitEllipse v (Fin s) planet)) /\
  aphelionMarker v (Fin s) planet =
    mkVec2 (ellipseX (orbitEllipse v (Fin s) planet)
            - radiusX (orbitEllipse v (Fin s) planet))%num
           (ellipseY (orbitEllipse v (Fin s) planet)).
Proof.
  intros _ _ _ _ Ha He v planet. subst v planet.
  rewrite position_at_mean_anomaly_0, position_at_mean_anomaly_PI by done.
  unfold perihelionMarker, aphelionMarker, screenPosition, orbitEllipse.
  cbn [x y centerX centerY semiMajorAxis eccentricity
       ellipseX ellipseY radiusX radiusY]. num_unfold.
  repeat split; f_equal; f_equal; ring.
Qed.

Lemma apsis_markers_on_orbit_witness :
  perihelionMarker (mkView (Fin 400) (Fin 300) (Fin 8) (Fin 1.1) None) (Fin 8.8) earth =
    screenPosition (mkView (Fin 400) (Fin 300) (Fin 8) (Fin 1.1) None) (Fin 8.8)
      (calculateOrbitalPosition earth (Fin 0)).
Proof.
  apply (apsis_markers_on_orbit 1.0 0.017 400 300 8.8 (Fin 1.0) (Fin 8)
           (Fin 1.1) None); try (rewrite Rabs_pos_eq; lra); lra.
Defined.

(** ** Controls *)

Lemma Math_min_Fin (a b : R) : Math_min (Fin a) (Fin b) = Fin (Rmin a b).
Proof.
  num_unfold. unfold Rmin.
  case_bool_decide; destruct (Rle_dec a b); f_equal; lra.
Qed.

Lemma Math_max_Fin (a b : R) : Math_max (Fin a) (Fin b) = Fin (Rmax a b).
Proof.
  num_unfold. unfold Rmax.
  case_bool_decide; destruct (Rle_dec a b); f_equal; lra.
Qed.

(** What a key does to the time speed and to the zoom: it leaves them as
    they are, or steps and clamps them. *)
Lemma keydown_cases (key : string) (s : SolarSystem) (v : View) :
  (timeSpeed (keydown key (s, v)).1 = timeSpeed s \/
   timeSpeed (keydown key (s, v)).1
     = Math_min (Fin 1.0) (timeSpeed s + Fin 0.01)%num \/
   timeSpeed (keydown key (s, v)).1
     = Math_max (Fin 0) (timeSpeed s - Fin 0.01)%num) /\
  (zoom (keydown key (s, v)).2 = zoom v \/
   zoom (keydown key (s, v)).2 = Math_min (Fin 22) (zoom v + Fin 0.6)%num \/
   zoom (keydown key (s, v)).2 = Math_max (Fin 1.1) (zoom v - Fin 0.6)%num) /\
  currentTime (keydown key (s, v)).1 = currentTime s /\
  baseScale (keydown key (s, v)).2 = baseScale v.
Proof.
  unfold keydown.
  repeat match goal with
         | |- context [keyIn ?k ?l] => destruct (keyIn k l)
         end; cbn; auto.
Qed.

Lemma timeSpeed_step_range (ts : R) (w : num) :
  0 <= ts <= 100 ->
  w = Fin ts \/ w = Math_min (Fin 1.0) (Fin ts + Fin 0.01)%num \/
  w = Math_max (Fin 0) (Fin ts - Fin 0.01)%num ->
  exists ts', w = Fin ts' /\ 0 <= ts' <= 100.
Proof.
  intros Hts [->|[->| ->]].
  - by exists ts.
  - cbn [add]. rewrite Math_min_Fin. eexists; split; [done|].
    unfold Rmin. destruct (Rle_dec _ _); lra.
  - cbn [sub add neg]. rewrite Math_max_Fin. eexists; split; [done|].
    unfold Rmax. destruct (Rle_dec _ _); lra.
Qed.

Lemma zoom_step_range (lo hi z : R) (w : num) :
  lo <= 1.1 -> 22 <= hi -> lo <= z <= hi ->
  w = Fin z \/ w = Math_min (Fin 22) (Fin z + Fin 0.6)%num \/
  w = Math_max (Fin 1.1) (Fin z - Fin 0.6)%num ->
  exists z', w = Fin z' /\ lo <= z' <= hi.
Proof.
  intros Hlo Hhi Hz [->|[->| ->]].
  - by exists z.
  - cbn [add]. rewrite Math_min_Fin. eexists; split; [done|].
    unfold Rmin. destruct (Rle_dec _ _); lra.
  - cbn [sub add neg]. rewrite Math_max_Fin. eexists; split; [done|].
    unfold Rmax. destruct (Rle_dec _ _); lra.
Qed.

Lemma pinchZoom_cases (iz last cur : R) (v : View) :
  zoom (pinchZoom (Fin iz) (Fin last) (Fin cur) v) = zoom v \/
  exists z, zoom (pinchZoom (Fin iz) (Fin last) (Fin cur) v) = Fin z /\
            1.1 <= z <= 22.
Proof.
  unfold pinchZoom. destruct (Fin last >? Fin 0)%num eqn:Hgt; [|by left].
  right. cbn [num_gt num_lt] in Hgt. apply bool_decide_eq_true_1 in Hgt.
  cbn [div]. rewrite bool_decide_eq_false_2 by lra.
  cbn [withZoom zoom mul]. rewrite Math_min_Fin, Math_max_Fin.
  eexists; split; [done|].
  unfold Rmax, Rmin. repeat destruct (Rle_dec _ _); lra.
Qed.

Lemma timeSpeedInput_range (sliderValue : num) (s : SolarSystem) :
  currentTime (timeSpeedInput sliderValue s) = currentTime s /\
  (timeSpeed (timeSpeedInput sliderValue s) = timeSpeed s \/
   exists ts, timeSpeed (timeSpeedInput sliderValue s) = Fin ts /\
              0 <= ts <= 100).
Proof.
  unfold timeSpeedInput, timeSpeedMultiplier.
  destruct sliderValue as [| | |sv]; cbn; auto.
  repeat case_bool_decide; cbn; auto.
  split; [done|]. right. eexists; split; [done|]. lra.
Qed.

Lemma zoomInput_range (sliderValue : num) (v : View) :
  baseScale (zoomInput sliderValue v) = baseScale v /\
  (zoom (zoomInput sliderValue v) = zoom v \/
   exists z, zoom (zoomInput sliderValue v) = Fin z /\ 0 <= z <= 1000).
Proof.
  unfold zoomInput, zoomMultiplier.
  destruct sliderValue as [| | |sv]; cbn; auto.
  repeat case_bool_decide; cbn; auto.
  split; [done|]. right. eexists; split; [done|]. lra.
Qed.

Lemma update_frame_clock (s : SolarSystem) (ts t : R) :
  timeSpeed s = Fin ts -> currentTime s = Fin t ->
  timeSpeed (update (Fin 1) s) = Fin ts /\
  exists t', currentTime (update (Fin 1) s) = Fin t'.
Proof.
  intros Hts Ht. unfold update.
  destruct (isPaused s); [eauto|]. cbn [isFinite isNaN negb orb].
  cbn [timeSpeed currentTime]. rewrite Hts, Ht. cbn. eauto.
Qed.

Lemma resetSimulation_clock (cfg : Config) (planets : gmap string Planet)
    (now ep : R) (s : SolarSystem) :
  epoch cfg = Fin ep ->
  timeSpeed (resetSimulation cfg planets (Fin now) s) = timeSpeed s /\
  exists t', currentTime (resetSimulation cfg planets (Fin now) s) = Fin t'.
Proof.
  intros Hep. unfold resetSimulation, initializePlanets, initialTimeOffset.
  rewrite Hep. unfold msPerDay.
  destruct (startAtCurrentDate cfg); num_unfold.
  - rewrite (bool_decide_eq_false_2 (1000 * 60 * 60 * 24 = 0)) by lra.
    num_unfold. case_bool_decide; cbn; eauto.
  - case_bool_decide; cbn; eauto.
Qed.

Lemma handle_controlsInRange (cfg : Config) (planets : gmap string Planet)
    (ep : R) (ev : event) (app : App) :
  epoch cfg = Fin ep -> finitePinch ev ->
  controlsInRange app -> controlsInRange (handle cfg planets ev app).
Proof.
  intros Hep Hev (ts & z & t & Hts & Hr & Hz & Hzr & Ht).
  destruct app as [s v]. simpl in Hts, Hz, Ht. unfold controlsInRange.
  destruct ev as [|key|sv|sv|iz last cur| |now|checked]; unfold handle.
  - destruct (update_frame_clock s ts t Hts Ht) as [Hts' [t' Ht']].
    exists ts, z, t'. by cbn [fst snd].
  - destruct (keydown_cases key s v) as (Hs & Hv & Hc & _).
    rewrite Hts in Hs. rewrite Hz in Hv.
    destruct (timeSpeed_step_range ts _ Hr Hs) as (ts' & Hts' & Hr').
    destruct (zoom_step_range 0 1000 z _ ltac:(lra) ltac:(lra) Hzr Hv)
      as (z' & Hz' & Hzr').
    exists ts', z', t. by rewrite Hc.
  - destruct (timeSpeedInput_range sv s) as [Hc [Hs|(ts' & Hs & Hr')]];
      cbn [fst snd]; rewrite Hc.
    + exists ts, z, t. by rewrite Hs.
    + by exists ts', z, t.
  - destruct (zoomInput_range sv v) as [_ [Hv|(z' & Hv & Hzr')]]; cbn [fst snd].
    + exists ts, z, t. by rewrite Hv.
    + by exists ts, z', t.
  - destruct Hev as (Hiz & Hlast & Hcur).
    destruct iz as [| | |iz]; [done..|]. destruct last as [| | |last]; [done..|].
    destruct cur as [| | |cur]; [done..|].
    destruct (pinchZoom_cases iz last cur v) as [Hv|(z' & Hv & Hzr')];
      cbn [fst snd].
    + exists ts, z, t. by rewrite Hv.
    + exists ts, z', t. repeat split; try done; lra.
  - by exists ts, z, t.
  - destruct (resetSimulation_clock cfg planets now ep s Hep) as [Hs [t' Ht']].
    exists ts, z, t'. cbn [fst snd]. by rewrite Hs.
  - by exists ts, z, t.
Qed.

(** X21.  Whatever the user does, the time speed stays a number in [[0, 100]],
    the zoom a number in [[0, 1000]], and the clock stays finite: the
    ranges hold at the start and every handler and every frame keeps them
    (the epoch of the configuration being a valid date). *)
Theorem controls_stay_in_range (cfg : Config) (planets : gmap string Planet)
    (ep : R) (events : list event) (app : App) :
  epoch cfg = Fin ep -> Forall finitePinch events ->
  controlsInRange app -> controlsInRange (play cfg planets events app).
Proof.
  intros Hep Hevents. revert app. unfold play.
  induction Hevents as [|ev events Hev _ IH]; intros app Happ; [done|].
  cbn [foldl]. apply IH. by apply (handle_controlsInRange cfg planets ep).
Qed.

Lemma controls_stay_in_range_witness :
  controlsInRange (play exampleConfig earthOnly exampleEvents exampleApp).
Proof.
  apply (controls_stay_in_range exampleConfig earthOnly 946728000000).
  - reflexivity.
  - unfold exampleEvents. repeat constructor.
  - exists 0.1, 1.1, 0. cbn. repeat split; lra.
Defined.

Lemma handle_zoom_valid (cfg : Config) (planets : gmap string Planet)
    (ev : event) (s : SolarSystem) (v : View) (z : R) :
  finitePinch ev -> isZoomSlider ev = false ->
  zoom v = Fin z -> 1.1 <= z <= 22 ->
  baseScale (handle cfg planets ev (s, v)).2 = baseScale v /\
  exists z', zoom (handle cfg planets ev (s, v)).2 = Fin z' /\ 1.1 <= z' <= 22.
Proof.
  intros Hev Hns Hz Hzr.
  destruct ev as [|key|sv|sv|iz last cur| |now|checked]; unfold handle;
    try discriminate; try (split; [done|]; by exists z).
  - destruct (keydown_cases key s v) as (_ & Hv & _ & Hb). split; [done|].
    rewrite Hz in Hv.
    exact (zoom_step_range 1.1 22 z _ ltac:(lra) ltac:(lra) Hzr Hv).
  - destruct Hev as (Hiz & Hlast & Hcur).
    destruct iz as [| | |iz]; [done..|]. destruct last as [| | |last]; [done..|].
    destruct cur as [| | |cur]; [done..|].
    split; [unfold pinchZoom; by destruct (_ >? _)%num|].
    destruct (pinchZoom_cases iz last cur v) as [Hv|(z' & Hv & Hzr')];
      cbn [fst snd].
    + exists z. by rewrite Hv.
    + by exists z'.
Qed.

(** X22.  With the keyboard, pinching and the buttons (everything but the zoom
    slider) the zoom stays within [[1.1, 22]] once it is there, as it is by
    default, and [draw] then accepts its scale on a canvas of positive
    size. *)
Theorem keys_and_pinch_keep_scale_valid (cfg : Config)
    (planets : gmap string Planet) (events : list event) (s : SolarSystem)
    (v : View) (bs z : R) :
  Forall finitePinch events ->
  Forall (fun ev => isZoomSlider ev = false) events ->
  baseScale v = Fin bs -> 0 < bs -> zoom v = Fin z -> 1.1 <= z <= 22 ->
  exists z',
    zoom (play cfg planets events (s, v)).2 = Fin z' /\ 1.1 <= z' <= 22 /\
    drawScale (play cfg planets events (s, v)).2 = Ok (Fin (bs * z')).
Proof.
  intros Hfin Hns Hbs Hpos. revert s v z Hns Hbs. unfold play.
  induction Hfin as [|ev events Hev _ IH]; intros s v z Hns Hbs Hz Hzr.
  - exists z. cbn [foldl snd]. split; [done|]. split; [done|].
    unfold drawScale. rewrite Hbs, Hz. num_unfold.
    rewrite bool_decide_eq_false_2; [done|nra].
  - apply Forall_cons in Hns as [Hns1 Hns].
    destruct (handle_zoom_valid cfg planets ev s v z Hev Hns1 Hz Hzr)
      as (Hb & z' & Hz' & Hzr').
    cbn [foldl]. destruct (handle cfg planets ev (s, v)) as [s' v'].
    cbn [snd] in Hb, Hz'. apply (IH s' v' z'); [done|congruence|done..].
Qed.

Lemma keys_and_pinch_keep_scale_valid_witness :
  exists z',
    zoom (play exampleConfig earthOnly
            [KeyDown "ArrowUp"; Frame; Pinch (Fin 1.7) (Fin 100) (Fin 250);
             KeyDown "-"]
            (exampleStart, exampleView)).2 = Fin z' /\ 1.1 <= z' <= 22 /\
    drawScale (play exampleConfig earthOnly
                 [KeyDown "ArrowUp"; Frame; Pinch (Fin 1.7) (Fin 100) (Fin 250);
                  KeyDown "-"]
                 (exampleStart, exampleView)).2 = Ok (Fin (10 * z')).
Proof.
  apply (keys_and_pinch_keep_scale_valid exampleConfig earthOnly _ exampleStart
           exampleView 10 1.1).
  - repeat constructor.
  - repeat constructor.
  - reflexivity.
  - lra.
  - reflexivity.
  - lra.
Defined.

(** X23.  The zoom slider accepts the value [0], and [draw] then throws "Invalid
    scale value" on every canvas; every other accepted value gives the
    scale [baseScale * sliderValue * 1.1] on a canvas of positive size. *)
Theorem zoom_slider_scale (sliderValue bs : R) (cx cy z : num)
    (sel : option string) :
  0 < bs -> 0 <= sliderValue * 1.1 <= 1000 ->
  drawScale (zoomInput (Fin sliderValue) (mkView cx cy (Fin bs) z sel)) =
    if bool_decide (sliderValue = 0) then Throw "Invalid scale value"
    else Ok (Fin (bs * (sliderValue * 1.1))).
Proof.
  intros Hbs Hsv. unfold zoomInput, zoomMultiplier. num_unfold.
  rewrite (bool_decide_eq_false_2 (sliderValue * 1.1 < 0)) by lra.
  rewrite (bool_decide_eq_false_2 (1000 < sliderValue * 1.1)) by lra.
  unfold drawScale. cbn [orb withZoom baseScale zoom]. num_unfold.
  destruct (decide (sliderValue = 0)) as [->|H0].
  - rewrite (bool_decide_eq_true_2 (0 = 0)) by done.
    rewrite bool_decide_eq_true_2; [done|lra].
  - rewrite (bool_decide_eq_false_2 (sliderValue = 0)) by done.
    rewrite bool_decide_eq_false_2; [done|nra].
Qed.

Lemma zoom_slider_scale_witness :
  drawScale (zoomInput (Fin 0) exampleView) =
    if bool_decide (0 = 0) then Throw "Invalid scale value"
    else Ok (Fin (10 * (0 * 1.1))).
Proof.
  apply (zoom_slider_scale 0 10 (Fin 500) (Fin 350) (Fin 1.1) None); lra.
Defined.

(** ** The constructor *)

Lemma initializePlanet_valid_period (t : num) (planet : Planet) (T : R) :
  period planet = Fin T -> 0 < T ->
  exists state, initializePlanet t planet = Ok state /\ data state = planet.
Proof.
  intros HT Hpos. unfold initializePlanet. rewrite HT. num_unfold.
  rewrite (bool_decide_eq_false_2 (T = 0)) by lra.
  rewrite (bool_decide_eq_false_2 (T <= 0)) by lra.
  rewrite (bool_decide_eq_false_2 (T * 365.25 <= 0)) by lra.
  cbn [negb orb]. rewrite andb_false_r. by eexists.
Qed.

(** X24.  The constructor gives every planet of the configuration an entry, and
    nothing else, when every period is a positive number of at most
    [1e300] years (so that the period in days is finite): no planet is
    skipped, whatever the date. *)
Theorem constructor_initializes_every_planet (cfg : Config)
    (planets : gmap string Planet) (now : num) (s : SolarSystem) :
  (forall key planet, planets !! key = Some planet ->
     exists T, period planet = Fin T /\ 0 < T <= 1e300) ->
  newSolarSystem cfg planets now = Ok s ->
  forall key, data <$> planetStates s !! key = planets !! key.
Proof.
  intros Hvalid Hnew key.
  apply newSolarSystem_Ok in Hnew as (t & _ & -> & _).
  rewrite initialize_fold_lookup, lookup_empty.
  destruct (planets !! key) as [planet|] eqn:Hkey; [|done].
  destruct (Hvalid key planet Hkey) as (T & HT & Hpos & _).
  destruct (initializePlanet_valid_period t planet T HT Hpos) as (st & -> & Hd).
  cbn. by rewrite Hd.
Qed.

Lemma constructor_initializes_every_planet_witness :
  data <$> planetStates exampleStart !! "earth" = earthOnly !! "earth".
Proof.
  apply (constructor_initializes_every_planet exampleConfig earthOnly (Fin 0)).
  - intros key planet Hkey. unfold earthOnly in Hkey.
    apply lookup_singleton_Some in Hkey as [_ <-].
    exists 1.0. split; [reflexivity|lra].
  - exact newSolarSystem_example.
Defined.

(** X25.  The constructor succeeds only when the time offset can be computed
    and at least one planet of the configuration can be initialized, and
    that planet then has its entry; when no planet can be initialized the
    constructor throws. *)
Theorem constructor_needs_a_planet (cfg : Config)
    (planets : gmap string Planet) (now : num) (s : SolarSystem) :
  newSolarSystem cfg planets now = Ok s ->
  exists t key planet state,
    initialTimeOffset cfg now = Ok t /\ planets !! key = Some planet /\
    initializePlanet t planet = Ok state /\
    planetStates s !! key = Some state.
Proof.
  intros Hnew.
  destruct (newSolarSystem_Ok _ _ _ _ Hnew) as (t & Ht & Hstates & _).
  unfold newSolarSystem, initializePlanets in Hnew. rewrite Ht in Hnew.
  cbn [planetStates] in Hnew. case_bool_decide as Hsize; [discriminate|].
  rewrite map_size_empty_iff in Hsize.
  apply map_choose in Hsize as (key & state & Hkey).
  pose proof Hkey as Hkey'.
  rewrite initialize_fold_lookup, lookup_empty in Hkey.
  destruct (planets !! key) as [planet|] eqn:Hp; [|done].
  destruct (initializePlanet t planet) as [state'|] eqn:Hinit; [|done].
  injection Hkey as <-.
  exists t, key, planet, state'. rewrite Hstates. by repeat split.
Qed.

Lemma constructor_needs_a_planet_witness :
  exists t key planet state,
    initialTimeOffset exampleConfig (Fin 0) = Ok t /\
    earthOnly !! key = Some planet /\
    initializePlanet t planet = Ok state /\
    planetStates exampleStart !! key = Some state.
Proof.
  apply (constructor_needs_a_planet exampleConfig earthOnly (Fin 0)).
  exact newSolarSystem_example.
Defined.

(** X26.  A simulation that starts at the epoch, or at a date that is not after
    it, starts with every planet at its perihelion: mean anomaly [0] and,
    for valid elements, position [(a (1 - e), 0)]. *)
Theorem starts_at_perihelion (cfg : Config) (planets : gmap string Planet)
    (now : num) (s : SolarSystem) (t a e : R) (key : string)
    (state : PlanetState) :
  initialTimeOffset cfg now = Ok (Fin t) -> t <= 0 ->
  newSolarSystem cfg planets now = Ok s ->
  planetStates s !! key = Some state ->
  semiMajorAxis (data state) = Fin a -> eccentricity (data state) = Fin e ->
  0 < a -> 0 <= e < 1 ->
  meanAnomaly state = Fin 0 /\
  position state = mkVec2 (Fin (a * (1 - e))) (Fin 0).
Proof.
  intros Ht Hle Hnew Hkey Ha He Hapos Herange.
  apply newSolarSystem_Ok in Hnew as (t' & Ht' & Hstates & _).
  rewrite Ht in Ht'. injection Ht' as <-.
  rewrite Hstates, initialize_fold_lookup, lookup_empty in Hkey.
  destruct (planets !! key) as [planet|]; [|done].
  destruct (initializePlanet (Fin t) planet) as [state'|] eqn:Hinit; [|done].
  injection Hkey as ->.
  assert (HM : meanAnomaly state = Fin 0).
  { revert Hinit. unfold initializePlanet.
    repeat match goal with
           | |- (if ?c then Throw _ else _) = Ok _ -> _ =>
               destruct c; [discriminate|]
           end.
    num_unfold. rewrite (bool_decide_eq_false_2 (0 < t)) by lra.
    by intros [= <-]. }
  split; [done|].
  apply initializePlanet_Ok in Hinit as (Hdata & _ & _ & Hpos).
  rewrite Hpos, HM. rewrite Hdata in Ha, He.
  destruct planet as [pa pe pT]. cbn in Ha, He. subst pa pe.
  by apply position_at_mean_anomaly_0.
Qed.

Lemma starts_at_perihelion_witness :
  meanAnomaly earthAtEpoch = Fin 0 /\
  position earthAtEpoch = mkVec2 (Fin (1.0 * (1 - 0.017))) (Fin 0).
Proof.
  apply (starts_at_perihelion exampleConfig earthOnly (Fin 0) exampleStart 0
           1.0 0.017 "earth" earthAtEpoch).
  - reflexivity.
  - lra.
  - exact newSolarSystem_example.
  - apply lookup_singleton_eq.
  - reflexivity.
  - reflexivity.
  - lra.
  - lra.
Defined.

(** ** The clock *)

Lemma frames_clock (cfg : Config) (planets : gmap string Planet)
    (n : nat) (s : SolarSystem) (v : View) (ts t : R) :
  isPaused s = false -> timeSpeed s = Fin ts -> currentTime s = Fin t ->
  currentTime (play cfg planets (replicate n Frame) (s, v)).1
    = Fin (t + INR n * ts).
Proof.
  revert s t. unfold play.
  induction n as [|n IH]; intros s t Hp Hts Ht.
  - cbn. rewrite Ht. f_equal. lra.
  - rewrite S_INR. cbn [replicate foldl handle].
    rewrite (IH (update (Fin 1) s) (t + ts)).
    + f_equal. lra.
    + unfold update. by rewrite Hp.
    + unfold update. by rewrite Hp.
    + unfold update. rewrite Hp, Hts, Ht. cbn. f_equal. lra.
Qed.

(** X27.  While the simulation runs, each animation frame advances the clock by
    [timeSpeed] days, as long as the clock stays within the range of the
    doubles. *)
Theorem frames_advance_clock (cfg : Config) (planets : gmap string Planet)
    (n : nat) (s : SolarSystem) (v : View) (ts t : R) :
  isPaused s = false -> timeSpeed s = Fin ts -> currentTime s = Fin t ->
  Rabs t + INR n * Rabs ts <= 1e300 ->
  currentTime (play cfg planets (replicate n Frame) (s, v)).1
    = Fin (t + INR n * ts).
Proof. intros Hp Hts Ht _. by apply frames_clock. Qed.

Lemma frames_advance_clock_witness :
  currentTime (play exampleConfig earthOnly (replicate 10 Frame)
                 (exampleStart, exampleView)).1 = Fin (0 + INR 10 * 0.1).
Proof.
  apply (frames_advance_clock exampleConfig earthOnly 10 exampleStart
           exampleView 0.1 0); try reflexivity.
  rewrite !Rabs_pos_eq by lra. cbn [INR]. lra.
Defined.

(** ** The velocity vector *)

(** X28.  The velocity vector drawn for a planet shows a direction only: for a
    velocity whose norm the code can compute (its square neither overflows
    nor vanishes) the length of the vector on the screen is twice the
    display radius, whatever the speed.  For a zero velocity, as every
    planet has until the first update, its end is [(NaN, NaN)].  The screen
    position and the radius are taken below [1e100] in magnitude. *)
Theorem velocity_arrow (sx sy radius : R) :
  Rabs sx <= 1e100 -> Rabs sy <= 1e100 -> Rabs radius <= 1e100 ->
  (forall vx vy : R, squarable (sqrt (vx * vx + vy * vy)) ->
     exists tx ty : R,
       velocityArrowTip (mkVec2 (Fin sx) (Fin sy)) (Fin radius)
         (mkVec2 (Fin vx) (Fin vy)) = mkVec2 (Fin tx) (Fin ty) /\
       (tx - sx) * (tx - sx) + (ty - sy) * (ty - sy)
         = 2 * radius * (2 * radius)) /\
  velocityArrowTip (mkVec2 (Fin sx) (Fin sy)) (Fin radius)
    (mkVec2 (Fin 0) (Fin 0)) = mkVec2 NaN NaN.
Proof.
  intros _ _ _. split.
  - intros vx vy Hv.
    assert (Hpos : 0 < vx * vx + vy * vy).
    { destruct (Rlt_dec 0 (vx * vx + vy * vy)) as [H|H]; [done|].
      unfold squarable in Hv. rewrite sqrt_neg_0, Rabs_R0 in Hv by lra. lra. }
    unfold velocityArrowTip, sq. cbn [x y]. cbn [mul add].
    rewrite sqrt_Fin by lra.
    pose proof (sqrt_lt_R0 _ Hpos) as Hm.
    pose proof (sqrt_sqrt _ (Rlt_le _ _ Hpos)) as Hmm.
    set (m := sqrt (vx * vx + vy * vy)) in *.
    cbn [div]. rewrite (bool_decide_eq_false_2 (m = 0)) by lra.
    cbn [mul add sub neg]. eexists _, _. split; [reflexivity|].
    replace (sx + vx / m * radius * 2 - sx) with (vx / m * radius * 2) by ring.
    replace (sy + - (vy / m * radius * 2) - sy) with (- (vy / m * radius * 2))
      by ring.
    replace (vx / m * radius * 2 * (vx / m * radius * 2) +
             - (vy / m * radius * 2) * - (vy / m * radius * 2))
      with ((vx * vx + vy * vy) / (m * m) * (2 * radius * (2 * radius)))
      by (field; lra).
    rewrite Hmm. field. lra.
  - unfold velocityArrowTip, sq. cbn [x y]. cbn [mul add].
    rewrite sqrt_Fin by lra.
    replace (0 * 0 + 0 * 0) with 0 by ring. rewrite sqrt_0.
    cbn [div]. rewrite !(bool_decide_eq_true_2 (0 = 0)) by done.
    reflexivity.
Qed.

Lemma velocity_arrow_witness :
  exists tx ty : R,
    velocityArrowTip (mkVec2 (Fin 500) (Fin 350)) (Fin 6)
      (mkVec2 (Fin 0) (Fin 29.8)) = mkVec2 (Fin tx) (Fin ty) /\
    (tx - 500) * (tx - 500) + (ty - 350) * (ty - 350) = 2 * 6 * (2 * 6).
Proof.
  assert (Hn : sqrt (0 * 0 + 29.8 * 29.8) = 29.8).
  { replace (0 * 0 + 29.8 * 29.8) with (29.8 * 29.8) by lra.
    apply sqrt_square. lra. }
  refine (proj1 (velocity_arrow 500 350 6 _ _ _) 0 29.8 _);
    try (rewrite Rabs_pos_eq; lra).
  rewrite Hn. apply squarable_pos. lra.
Defined.
